(** * Forex monitoring agent: the priority event pipeline of [forex_agent.py]

    A shallow embedding of [PriorityEventQueue], the two producers' event
    classification, the alert gate [maybe_trigger_alert] / [is_market_hours]
    and the [event_processor] loop, with the properties of the design
    document stated and settled against it.

    Conventions of the embedding.
    - Python exceptions are values of [exn]; a call that may raise returns
      [result A].
    - [time.time()] readings are integers (whole seconds); every function
      that reads the clock takes the reading as an argument.  Float rounding
      of [now - last_alert] is not modelled.
    - Percent changes and prices are rationals ([Q]); float rounding is not
      modelled.
    - [heapq] is the Python standard library's binary heap ([heappush],
      [heappop], [_siftdown], [_siftup]), embedded statement by statement.
    - External collaborators (the language model, the telephony SDK, the
      process environment) are inputs: each call's outcome is given. *)

From Stdlib Require Import ZArith QArith Qabs Lia Permutation Sorted Ascii String.
From stdpp Require Import gmap strings list fin_maps sorting.

Local Open Scope string_scope.
Local Open Scope list_scope.
Local Open Scope Z_scope.

(** ** Exceptions *)

Inductive exn : Type :=
| TypeError                      (* unorderable operands of [<] *)
| KeyError (key : string)        (* missing dict key *)
| IndexError                     (* list index out of range *)
| CollaboratorError (msg : string). (* raised by an external call *)

Inductive result (A : Type) : Type :=
| Ok (a : A)
| Raise (e : exn).
Arguments Ok {A} a.
Arguments Raise {A} e.

Definition bind {A B} (r : result A) (k : A -> result B) : result B :=
  match r with
  | Ok a => k a
  | Raise e => Raise e
  end.

Notation "x <- r ;; k" := (bind r (fun x => k))
  (at level 100, r at next level, right associativity).

(** ** Events *)

(** The two dict shapes the producers build:
    [{"type": "price", "pair", "change", "price"}] and
    [{"type": "news", "headline", "pair"}]. *)
Inductive Event : Type :=
| PriceEvent (pair : string) (change : Q) (price : Q)
| NewsEvent (headline : string) (pair : string).

Definition event_type (e : Event) : string :=
  match e with
  | PriceEvent _ _ _ => "price"
  | NewsEvent _ _ => "news"
  end.

Definition event_pair (e : Event) : string :=
  match e with
  | PriceEvent p _ _ => p
  | NewsEvent _ p => p
  end.

(** [==] on two event dicts: same keys with equal values (floats compare by
    value). *)
Definition event_eqb (a b : Event) : bool :=
  match a, b with
  | PriceEvent p c x, PriceEvent p' c' x' =>
      String.eqb p p' && Qeq_bool c c' && Qeq_bool x x'
  | NewsEvent h p, NewsEvent h' p' => String.eqb h h' && String.eqb p p'
  | _, _ => false
  end.

(** ** Queue entries: the tuples [(priority, time.time(), event)] *)

Record Entry : Type := mkEntry {
  e_priority : Z;
  e_time : Z;
  e_event : Event
}.

(** [a < b] on two such tuples: the first position where they differ
    decides; dicts do not support [<], so two entries that agree on priority
    and time and carry different events raise [TypeError]. *)
Definition entry_lt (a b : Entry) : result bool :=
  if negb (e_priority a =? e_priority b) then Ok (e_priority a <? e_priority b)
  else if negb (e_time a =? e_time b) then Ok (e_time a <? e_time b)
  else if event_eqb (e_event a) (e_event b) then Ok false
  else Raise TypeError.

(** ** heapq *)

Module heapq.

(** The [while pos > startpos] loop of [_siftdown]; [pos] strictly decreases,
    so [fuel = pos] iterations are enough ([siftdown_loop_fuel]). *)
Fixpoint siftdown_loop (fuel : nat) (heap : list Entry) (newitem : Entry)
    (startpos pos : nat) : result (list Entry) :=
  match fuel with
  | O => Ok (<[pos := newitem]> heap)
  | S fuel' =>
      if decide (startpos < pos)%nat then
        let parentpos := Nat.shiftr (pos - 1) 1 in
        match heap !! parentpos with
        | None => Raise IndexError
        | Some parent =>
            lt <- entry_lt newitem parent ;;
            if (lt : bool)
            then siftdown_loop fuel' (<[pos := parent]> heap) newitem startpos parentpos
            else Ok (<[pos := newitem]> heap)
        end
      else Ok (<[pos := newitem]> heap)
  end.

Definition _siftdown (heap : list Entry) (startpos pos : nat) : result (list Entry) :=
  match heap !! pos with
  | None => Raise IndexError
  | Some newitem => siftdown_loop pos heap newitem startpos pos
  end.

(** The [while childpos < endpos] loop of [_siftup]: the smaller child is
    moved up until a leaf is reached; returns the heap and the leaf.  [pos]
    strictly increases, so [fuel = endpos - pos] iterations are enough
    ([siftup_loop_fuel]). *)
Fixpoint siftup_loop (fuel : nat) (heap : list Entry) (endpos pos : nat)
    : result (list Entry * nat) :=
  match fuel with
  | O => Ok (heap, pos)
  | S fuel' =>
      let childpos := (2 * pos + 1)%nat in
      if decide (childpos < endpos)%nat then
        let rightpos := (childpos + 1)%nat in
        smaller <-
          (if decide (rightpos < endpos)%nat then
             match heap !! childpos, heap !! rightpos with
             | Some l, Some r =>
                 lt <- entry_lt l r ;;
                 Ok (if (lt : bool) then childpos else rightpos)
             | _, _ => Raise IndexError
             end
           else Ok childpos) ;;
        match heap !! smaller with
        | None => Raise IndexError
        | Some c => siftup_loop fuel' (<[pos := c]> heap) endpos smaller
        end
      else Ok (heap, pos)
  end.

Definition _siftup (heap : list Entry) (pos : nat) : result (list Entry) :=
  let endpos := length heap in
  let startpos := pos in
  match heap !! pos with
  | None => Raise IndexError
  | Some newitem =>
      r <- siftup_loop (endpos - pos) heap endpos pos ;;
      let '(heap', leaf) := r in
      _siftdown (<[leaf := newitem]> heap') startpos leaf
  end.

Definition heappush (heap : list Entry) (item : Entry) : result (list Entry) :=
  let heap' := heap ++ [item] in
  _siftdown heap' 0 (length heap' - 1).

(** Returns the popped item and the remaining heap. *)
Definition heappop (heap : list Entry) : result (Entry * list Entry) :=
  match last heap with
  | None => Raise IndexError
  | Some lastelt =>
      let heap' := removelast heap in
      match heap' with
      | [] => Ok (lastelt, heap')
      | returnitem :: _ =>
          heap'' <- _siftup (<[0%nat := lastelt]> heap') 0 ;;
          Ok (returnitem, heap'')
      end
  end.

End heapq.

(** ** PriorityEventQueue *)

Record PriorityEventQueue : Type := mkQueue {
  _queue : list Entry;
  _event_available : bool
}.

Definition new_queue : PriorityEventQueue :=
  {| _queue := []; _event_available := false |}.

(** [put(priority, event)], with [now] the value [time.time()] returns.
    [Raise] carries no state: the list a raising [heappush] leaves behind
    (the new item already appended) is not modelled. *)
Definition put (q : PriorityEventQueue) (priority : Z) (now : Z) (event : Event)
    : result PriorityEventQueue :=
  heap <- heapq.heappush (_queue q) (mkEntry priority now event) ;;
  Ok {| _queue := heap; _event_available := true |}.

(** One call of [get()] up to its first suspension: on an empty queue the
    caller is parked on [_event_available] (cleared if it was set), otherwise
    the event of the popped entry is returned. *)
Inductive GetOutcome : Type :=
| Waiting (q : PriorityEventQueue)
| Got (event : Event) (q : PriorityEventQueue).

Definition get (q : PriorityEventQueue) : result GetOutcome :=
  match _queue q with
  | [] => Ok (Waiting {| _queue := []; _event_available := false |})
  | _ :: _ =>
      r <- heapq.heappop (_queue q) ;;
      let '(item, heap) := r in
      Ok (Got (e_event item) {| _queue := heap; _event_available := _event_available q |})
  end.

(** A sequence of [put] calls: [(priority, clock reading, event)] each. *)
Fixpoint put_all (q : PriorityEventQueue) (pushes : list Entry)
    : result PriorityEventQueue :=
  match pushes with
  | [] => Ok q
  | p :: rest =>
      q' <- put q (e_priority p) (e_time p) (e_event p) ;;
      put_all q' rest
  end.

(** [n] successive [get] calls, none of which may find the queue empty. *)
Fixpoint get_n (n : nat) (q : PriorityEventQueue) : result (list Event) :=
  match n with
  | O => Ok []
  | S n' =>
      r <- get q ;;
      match r with
      | Waiting _ => Raise IndexError
      | Got ev q' => evs <- get_n n' q' ;; Ok (ev :: evs)
      end
  end.

(** ** Dicts and strings *)

(** [d[key]]: [KeyError] when the key is missing. *)
Definition dict_get {V} (d : gmap string V) (key : string) : result V :=
  match d !! key with
  | Some v => Ok v
  | None => Raise (KeyError key)
  end.

(** [str.lower()] on ASCII text. *)
Definition lower_ascii (c : ascii) : ascii :=
  let n := nat_of_ascii c in
  if ((65 <=? n) && (n <=? 90))%nat then ascii_of_nat (n + 32) else c.

Fixpoint lower (s : string) : string :=
  match s with
  | EmptyString => EmptyString
  | String c s' => String (lower_ascii c) (lower s')
  end.

(** [kw in s] on strings. *)
Fixpoint contains (kw s : string) : bool :=
  String.prefix kw s ||
  match s with
  | EmptyString => false
  | String _ s' => contains kw s'
  end.

(** ** ForexAgent: configuration and state *)

Definition EVENT_PRIORITIES : gmap string Z :=
  list_to_map [("emergency_price", 1); ("breaking_news", 1); ("price_spike", 2);
               ("news", 3); ("status_update", 4)].

Definition monitored_pairs : list string :=
  ["EUR/USD"; "USD/JPY"; "GBP/USD"; "AUD/USD"; "USD/KES"].

Definition alert_thresholds : gmap string Q :=
  list_to_map [("emergency_price", 15 # 10); ("price_spike", 8 # 10)].

(** One value of [market_state]; a history item is [(price, timestamp)]. *)
Record PairState : Type := mkPairState {
  price : Q;
  last_alert : Z;
  volatility : Q;
  history : list (Q * Z)
}.

(** What the processor prints, one constructor per [print] statement. *)
Inductive Title : Type :=
| PriceTitle (pair : string) (abs_change : Q)     (* "{pair} PRICE MOVEMENT: ..%" *)
| NewsTitle (pair : string) (headline30 : string). (* "{pair} NEWS: {headline[:30]}..." *)

Inductive LogLine : Type :=
| LogProcessorStarted
| LogEventReceived (type pair : string)
| LogCooldown (pair : string)          (* "Cooldown active for {pair} - suppressing alert" *)
| LogOutsideHours                      (* "Outside market hours - suppressing alert" *)
| LogAlert (title : Title)
| LogMessage (message : string)
| LogNotConfigured                     (* "Africa's Talking not configured - skipping call" *)
| LogCallInitiated (call_id : string)
| LogCallError (e : exn).              (* "Africa's Talking error: ..." *)

(** One invocation of [voice.call]. *)
Record VoiceCall : Type := mkVoiceCall {
  callFrom : string;
  callTo : list string
}.

(** The agent's fields, with the lines printed so far and the calls placed
    so far. *)
Record ForexAgent : Type := mkAgent {
  market_state : gmap string PairState;
  last_alert_time : Z;
  event_queue : PriorityEventQueue;
  resource_lock : bool;
  console : list LogLine;
  calls : list VoiceCall
}.

Definition print (a : ForexAgent) (l : LogLine) : ForexAgent :=
  mkAgent (market_state a) (last_alert_time a) (event_queue a) (resource_lock a)
          (console a ++ [l]) (calls a).

Definition set_queue (a : ForexAgent) (q : PriorityEventQueue) : ForexAgent :=
  mkAgent (market_state a) (last_alert_time a) q (resource_lock a)
          (console a) (calls a).

Definition set_lock (a : ForexAgent) (b : bool) : ForexAgent :=
  mkAgent (market_state a) (last_alert_time a) (event_queue a) b
          (console a) (calls a).

Definition set_pair_state (a : ForexAgent) (pair : string) (s : PairState) : ForexAgent :=
  mkAgent (<[pair := s]> (market_state a)) (last_alert_time a) (event_queue a)
          (resource_lock a) (console a) (calls a).

Definition record_call (a : ForexAgent) (c : VoiceCall) : ForexAgent :=
  mkAgent (market_state a) (last_alert_time a) (event_queue a) (resource_lock a)
          (console a) (calls a ++ [c]).

(** [__init__]: one [market_state] entry per monitored pair; [draw pair] is
    the value [random.uniform(0.8, 1.2)] returned for it. *)
Definition initial_market_state (draw : string -> Q) : gmap string PairState :=
  foldl (fun m pair => <[pair := mkPairState (draw pair) 0 (1 # 10) []]> m)
        ∅ monitored_pairs.

Definition new_agent (draw : string -> Q) : ForexAgent :=
  mkAgent (initial_market_state draw) 0 new_queue false [] [].

(** ** Producers *)

Definition Qgt_dec (x y : Q) : {(y < x)%Q} + {(x <= y)%Q} := Qlt_le_dec y x.

(** The detection at the end of a price tick: from [change] (a fraction) to
    the event type, if any.  The product and the two comparisons are exact
    on rationals; the code computes them on floats, so a value within one
    rounding step of a threshold can be classified differently there. *)
Definition detect_movement (change : Q) : result (option string) :=
  let abs_change := Qabs (change * 100) in
  emergency <- dict_get alert_thresholds "emergency_price" ;;
  if Qgt_dec abs_change emergency then Ok (Some "emergency_price")
  else
    spike <- dict_get alert_thresholds "price_spike" ;;
    if Qgt_dec abs_change spike then Ok (Some "price_spike")
    else Ok None.

(** The [put] call the detection leads to, if any: its priority and event. *)
Definition movement_event (pair : string) (change new_price : Q)
    : result (option (Z * Event)) :=
  event_type <- detect_movement change ;;
  match event_type with
  | Some ty =>
      priority <- dict_get EVENT_PRIORITIES ty ;;
      Ok (Some (priority, PriceEvent pair (change * 100) new_price))
  | None => Ok None
  end.

Definition enqueue (a : ForexAgent) (emitted : option (Z * Event)) (now : Z)
    : result ForexAgent :=
  match emitted with
  | Some (priority, event) =>
      q <- put (event_queue a) priority now event ;;
      Ok (set_queue a q)
  | None => Ok a
  end.

(** The random draws and clock readings of one pair's tick. *)
Record TickDraws : Type := mkTickDraws {
  d_change : Q;        (* random.uniform(-0.003, 0.003) *)
  d_roll : Q;          (* random.random() *)
  d_sign : Z;          (* random.choice([-1, 1]) *)
  d_size : Q;          (* random.uniform(0.01, 0.05) *)
  d_history_time : Z;  (* time.time() stored in the history *)
  d_put_time : Z       (* time.time() read by put *)
}.

Definition last_n {A} (n : nat) (l : list A) : list A := drop (length l - n) l.

Definition Qsum (l : list Q) : Q := foldr Qplus 0%Q l.

Section market_data_stream.

(** The float operation [x ** 0.5]. *)
Variable pow_half : Q -> Q.

(** The new price, the percent change and the updated entry of the pair. *)
Definition update_pair (state : PairState) (d : TickDraws) : Q * Q * PairState :=
  let last_price := price state in
  let '(new_price, change) :=
    if Qgt_dec (5 # 100) (d_roll d)
    then let movement := (inject_Z (d_sign d) * d_size d)%Q in
         ((last_price * (1 + movement))%Q, movement)
    else ((last_price * (1 + d_change d))%Q, d_change d) in
  let history1 := history state ++ [(new_price, d_history_time d)] in
  let history2 := if decide (100 < length history1)%nat
                  then last_n 50 history1 else history1 in
  let prices := fst <$> last_n 20 history2 in
  let len := inject_Z (Z.of_nat (length prices)) in
  let mean_price := (Qsum prices / len)%Q in
  let variance := (Qsum ((fun p => (p - mean_price) ^ 2) <$> prices) / len)%Q in
  (new_price, change, mkPairState new_price (last_alert state) (pow_half variance) history2).

(** The body of the [for pair in self.monitored_pairs] loop. *)
Definition tick_pair (a : ForexAgent) (pair : string) (d : TickDraws)
    : result ForexAgent :=
  state <- dict_get (market_state a) pair ;;
  let '(new_price, change, state') := update_pair state d in
  let a1 := set_pair_state a pair state' in
  emitted <- movement_event pair change new_price ;;
  enqueue a1 emitted (d_put_time d).

End market_data_stream.

Definition sample_news : list (string * string) :=
  [("ECB announces emergency rate hike", "EUR/USD");
   ("US inflation exceeds forecasts", "USD/JPY");
   ("Political crisis deepens in the UK", "GBP/USD");
   ("Bank of Japan intervenes in FX market", "USD/JPY");
   ("Fed signals pause in rate hikes", "EUR/USD");
   ("Geopolitical tensions escalate", "USD/CHF");
   ("Natural disaster impacts major economy", "AUD/USD");
   ("Central Bank of Kenya adjusts rates", "USD/KES");
   ("South African economic outlook worsens", "USD/ZAR")].

Definition breaking_keywords : list string := ["emergency"; "crisis"; "war"; "disaster"].

(** The priority and the event one iteration of [news_monitor] puts, for the
    item [random.choice] picks ([choice] is its index). *)
Definition news_item (choice : nat) : result (Z * Event) :=
  match sample_news !! choice with
  | None => Raise IndexError
  | Some (headline, pair_) =>
      priority <-
        (if existsb (fun kw => contains kw (lower headline)) breaking_keywords
         then dict_get EVENT_PRIORITIES "breaking_news"
         else dict_get EVENT_PRIORITIES "news") ;;
      Ok (priority, NewsEvent headline pair_)
  end.

(** One iteration of the [while True] loop of [news_monitor]; [roll] is
    [random.random()]. *)
Definition news_tick (a : ForexAgent) (roll : Q) (choice : nat) (now : Z)
    : result ForexAgent :=
  if Qgt_dec (2 # 100) roll then
    item <- news_item choice ;;
    q <- put (event_queue a) (fst item) now (snd item) ;;
    Ok (set_queue a q)
  else Ok a.

(** ** The alert gate and the dispatch *)

(** [is_market_hours], with [hour] the value of [datetime.utcnow().hour]. *)
Definition is_market_hours (hour : Z) : bool :=
  ((0 <=? hour) && (hour <? 8)) || ((7 <=? hour) && (hour <? 17)) ||
  ((12 <=? hour) && (hour <? 22)).

(** The response dict of [voice.call]: the ['entries'] list if the key is
    there, each entry with its ['callId'] if that key is there. *)
Record Response : Type := mkResponse {
  entries : option (list (option string))
}.

(** [response['entries'][0]['callId'] if 'entries' in response else 'N/A']. *)
Definition extract_call_id (response : Response) : result string :=
  match entries response with
  | None => Ok "N/A"
  | Some [] => Raise IndexError
  | Some (None :: _) => Raise (KeyError "callId")
  | Some (Some call_id :: _) => Ok call_id
  end.

(** What the outside world answers during the processing of one event. *)
Record Externals : Type := mkExternals {
  now : Z;                                  (* time.time() in maybe_trigger_alert *)
  utc_hour : Z;                             (* datetime.utcnow().hour *)
  environ : gmap string string;             (* os.environ *)
  generate : result string;                 (* the outcome of generate_ai_response *)
  voice_call : VoiceCall -> result Response (* the outcome of voice.call *)
}.

(** [os.getenv(key)] and [os.getenv(key, default)]. *)
Definition getenv (env : gmap string string) (key : string) : option string :=
  env !! key.

Definition getenv_default (env : gmap string string) (key default : string) : string :=
  match env !! key with
  | Some v => v
  | None => default
  end.

(** Truth value of an [os.getenv] result: [None] and [""] are false. *)
Definition truthy (v : option string) : bool :=
  match v with
  | None => false
  | Some s => negb (String.eqb s "")
  end.

(** The test [all([getenv(USERNAME), getenv(API_KEY), getenv(YOUR_PHONE_NUMBER)])]. *)
Definition configured (env : gmap string string) : bool :=
  forallb truthy [getenv env "AFRICASTALKING_USERNAME";
                  getenv env "AFRICASTALKING_API_KEY";
                  getenv env "YOUR_PHONE_NUMBER"].

(** The call [maybe_trigger_alert] places. *)
Definition the_call (env : gmap string string) : VoiceCall :=
  mkVoiceCall (getenv_default env "AFRICASTALKING_VIRTUAL_NUMBER" "+254711XXXYYY")
              (match getenv env "YOUR_PHONE_NUMBER" with
               | Some n => [n]
               | None => []
               end).

Definition set_last_alert (a : ForexAgent) (pair : string) (t : Z) : ForexAgent :=
  mkAgent (alter (fun s => mkPairState (price s) t (volatility s) (history s))
                 pair (market_state a))
          t (event_queue a) (resource_lock a) (console a) (calls a).

Definition maybe_trigger_alert (a : ForexAgent) (x : Externals)
    (title : Title) (message : string) (pair : string) : result ForexAgent :=
  state <- dict_get (market_state a) pair ;;
  if now x - last_alert state <? 300 then Ok (print a (LogCooldown pair))
  else if negb (is_market_hours (utc_hour x)) then Ok (print a LogOutsideHours)
  else
    let a1 := print (print a (LogAlert title)) (LogMessage message) in
    if negb (configured (environ x)) then Ok (print a1 LogNotConfigured)
    else
      (* try: *)
      let a2 := record_call a1 (the_call (environ x)) in
      match (response <- voice_call x (the_call (environ x)) ;;
             extract_call_id response) with
      | Ok call_id =>
          Ok (set_last_alert (print a2 (LogCallInitiated call_id)) pair (now x))
      | Raise e => (* except Exception as e: *)
          Ok (print a2 (LogCallError e))
      end.

(** ** The event processor *)

Definition handle_price_event (a : ForexAgent) (x : Externals)
    (pair : string) (change price : Q) : result ForexAgent :=
  state <- dict_get (market_state a) pair ;;
  analysis <- generate x ;;
  maybe_trigger_alert a x (PriceTitle pair (Qabs change)) analysis pair.

Definition handle_news_event (a : ForexAgent) (x : Externals)
    (headline pair : string) : result ForexAgent :=
  analysis <- generate x ;;
  maybe_trigger_alert a x (NewsTitle pair (substring 0 30 headline)) analysis pair.

(** The body of [async with self.resource_lock] for an event. *)
Definition handle_event (a : ForexAgent) (x : Externals) (event : Event)
    : result ForexAgent :=
  match event with
  | PriceEvent pair_ change price_ => handle_price_event a x pair_ change price_
  | NewsEvent headline pair_ => handle_news_event a x headline pair_
  end.

(** How a run of the processor loop stands: parked in [get] on an empty
    queue, stopped by an exception that left the loop, or out of recorded
    answers of the outside world with events still queued. *)
Inductive ProcessorRun : Type :=
| WaitingForEvent (a : ForexAgent)
| LoopTerminated (e : exn) (a : ForexAgent)
| MoreToDo (a : ForexAgent).

(** The [while True] loop of [event_processor]: one iteration per element of
    [xs].  The lock is taken before the handler and released after it, also
    when the handler raises; nothing in the loop catches the exception.
    When [get] itself raises, the loop ends as well; the agent returned in
    that case still shows the queue as it was before the call: [Raise]
    carries no state, and what the interrupted [heappop] leaves in the list
    (the root entry already taken out) is not modelled. *)
Fixpoint event_processor_loop (xs : list Externals) (a : ForexAgent) : ProcessorRun :=
  match get (event_queue a) with
  | Raise e => LoopTerminated e a
  | Ok (Waiting q) => WaitingForEvent (set_queue a q)
  | Ok (Got event q) =>
      match xs with
      | [] => MoreToDo a
      | x :: xs' =>
          let a1 := print (set_queue a q)
                          (LogEventReceived (event_type event) (event_pair event)) in
          let a2 := set_lock a1 true in
          match handle_event a2 x event with
          | Raise e => LoopTerminated e (set_lock a2 false)
          | Ok a3 => event_processor_loop xs' (set_lock a3 false)
          end
      end
  end.

Definition event_processor (xs : list Externals) (a : ForexAgent) : ProcessorRun :=
  event_processor_loop xs (print a LogProcessorStarted).

(** ** Interleaving of the tasks *)

Module Sched.

(** Where a task running [event_processor] is suspended. *)
Inductive pc : Type :=
| AwaitGet                     (* in [await self.event_queue.get()] *)
| AwaitLock (event : Event)    (* entering [async with self.resource_lock] *)
| Handling (event : Event)     (* inside the [async with] block *)
| Sleeping                     (* in [await asyncio.sleep(0.1)] *)
| Terminated (e : exn).        (* left the loop with an exception *)

Record state : Type := mkState {
  queue : PriorityEventQueue;
  locked : bool;               (* [asyncio.Lock.locked()] *)
  procs : list pc
}.

Definition init (n : nat) : state := mkState new_queue false (replicate n AwaitGet).

(** The tasks run one at a time and switch at [await]s.  [asyncio.Lock] lets
    [acquire] return only while the lock is free and marks it taken;
    leaving the [async with] block, normally or by an exception, releases
    it.  The contents of the queue after a [put] or a [get] that raises are
    not modelled: a raising [put] is no step, and [step_get_raise] keeps the
    queue as it was before the call. *)
Inductive step : state -> state -> Prop :=
| step_put s priority now event q' :
    put (queue s) priority now event = Ok q' ->
    step s (mkState q' (locked s) (procs s))
| step_get s i event q' :
    procs s !! i = Some AwaitGet ->
    get (queue s) = Ok (Got event q') ->
    step s (mkState q' (locked s) (<[i := AwaitLock event]> (procs s)))
| step_get_raise s i e :
    procs s !! i = Some AwaitGet ->
    get (queue s) = Raise e ->
    step s (mkState (queue s) (locked s) (<[i := Terminated e]> (procs s)))
| step_park s i q' :
    procs s !! i = Some AwaitGet ->
    get (queue s) = Ok (Waiting q') ->
    step s (mkState q' (locked s) (procs s))
| step_acquire s i event :
    procs s !! i = Some (AwaitLock event) ->
    locked s = false ->
    step s (mkState (queue s) true (<[i := Handling event]> (procs s)))
| step_release s i event :
    procs s !! i = Some (Handling event) ->
    step s (mkState (queue s) false (<[i := Sleeping]> (procs s)))
| step_raise s i event e :
    procs s !! i = Some (Handling event) ->
    step s (mkState (queue s) false (<[i := Terminated e]> (procs s)))
| step_wake s i :
    procs s !! i = Some Sleeping ->
    step s (mkState (queue s) (locked s) (<[i := AwaitGet]> (procs s))).

Definition in_critical_section (p : pc) : bool :=
  match p with
  | Handling _ => true
  | _ => false
  end.

Definition holders (ps : list pc) : nat :=
  length (filter (fun p => in_critical_section p = true) ps).

End Sched.

(** The lock is taken exactly when one task is inside the block. *)
Definition lock_inv (s : Sched.state) : Prop :=
  Sched.holders (Sched.procs s) = if Sched.locked s then 1%nat else 0%nat.

(** ** Order on the keys [(priority, time)] and the heap invariant *)

Definition keyof (e : Entry) : Z * Z := (e_priority e, e_time e).

Definition key_lt (a b : Entry) : Prop :=
  e_priority a < e_priority b \/ (e_priority a = e_priority b /\ e_time a < e_time b).

Definition key_le (a b : Entry) : Prop :=
  e_priority a < e_priority b \/ (e_priority a = e_priority b /\ e_time a <= e_time b).

#[local] Instance key_lt_dec (a b : Entry) : Decision (key_lt a b).
Proof. unfold key_lt. apply _. Defined.

Definition parent (i : nat) : nat := Nat.shiftr (i - 1) 1.

(** Position [i] is not smaller than its parent. *)
Definition ordered_at (h : list Entry) (i : nat) : Prop :=
  forall a b, h !! i = Some a -> h !! parent i = Some b -> key_le b a.

Definition is_heap (h : list Entry) : Prop :=
  forall i, (0 < i)%nat -> ordered_at h i.

(** The children of [pos] are not smaller than the parent of [pos]. *)
Definition grand_ok (h : list Entry) (pos : nat) : Prop :=
  forall c a b, (0 < pos)%nat -> (0 < c)%nat -> parent c = pos ->
    h !! c = Some a -> h !! parent pos = Some b -> key_le b a.

(** Invariant of [_siftdown]: a heap but for the item at [pos], which may be
    smaller than its ancestors. *)
Definition sift_inv (h : list Entry) (pos : nat) : Prop :=
  (forall i, (0 < i)%nat -> i <> pos -> ordered_at h i) /\ grand_ok h pos.

(** Invariant of the first loop of [_siftup]: a heap but for the item at
    [pos], which is unrelated to its parent and to its children. *)
Definition hole_inv (h : list Entry) (pos : nat) : Prop :=
  (forall i, (0 < i)%nat -> i <> pos -> parent i <> pos -> ordered_at h i) /\
  grand_ok h pos.

(** ** The dequeue order the design document asks for *)

(** [events] are the events of the pushed entries, in ascending priority
    class, and within every priority class in the order of the pushes. *)
Definition dequeue_order_ok (pushes : list Entry) (events : list Event) : Prop :=
  exists out : list Entry,
    events = e_event <$> out /\
    StronglySorted (fun a b => e_priority a <= e_priority b) out /\
    forall p : Z, filter (fun e => e_priority e = p) out =
                  filter (fun e => e_priority e = p) pushes.

(** All the pushes succeed, and as many [get] calls return events in that
    order. *)
Definition drains_in_order (pushes : list Entry) : Prop :=
  exists q events,
    put_all new_queue pushes = Ok q /\
    get_n (length pushes) q = Ok events /\
    dequeue_order_ok pushes events.

(** ** Conditions named in the design document *)

(** The alert gate lets the event of [pair] through at the time of [x]: the
    pair's cooldown has elapsed and the hour is inside the active hours. *)
Definition gate_permits (a : ForexAgent) (x : Externals) (pair : string) : Prop :=
  exists state, market_state a !! pair = Some state /\
                300 <= now x - last_alert state /\
                is_market_hours (utc_hour x) = true.

(** The origin address, the destination address and both credentials are
    set in the environment. *)
Definition dispatch_config_present (env : gmap string string) : Prop :=
  truthy (getenv env "AFRICASTALKING_VIRTUAL_NUMBER") = true /\
  truthy (getenv env "YOUR_PHONE_NUMBER") = true /\
  truthy (getenv env "AFRICASTALKING_USERNAME") = true /\
  truthy (getenv env "AFRICASTALKING_API_KEY") = true.

(** [voice.call] was invoked between [a] and [a']. *)
Definition call_attempted (a a' : ForexAgent) : Prop :=
  exists c, calls a' = calls a ++ [c].

(** The [last_alert] of [pair] in [a]. *)
Definition last_alert_of (a : ForexAgent) (pair : string) : option Z :=
  last_alert <$> market_state a !! pair.

(** ** Further conditions on queues *)

(** Two entries that [<] cannot order: same priority, same time, different
    events. *)
Definition collide (a b : Entry) : Prop :=
  e_priority a = e_priority b /\ e_time a = e_time b /\
  event_eqb (e_event a) (e_event b) = false.

(** ** Reading the console *)

(** The [(type, pair)] of the "EVENT RECEIVED" lines, in the order printed. *)
Definition received_line (l : LogLine) : option (string * string) :=
  match l with
  | LogEventReceived ty p => Some (ty, p)
  | _ => None
  end.

Definition received_events (lines : list LogLine) : list (string * string) :=
  omap received_line lines.

(** What the processor prints on receiving [event]. *)
Definition event_tag (event : Event) : string * string :=
  (event_type event, event_pair event).

(** ** The health report *)

(** The "Last alert" part of a pair's line: ["Never"] or ["{n}s ago"]. *)
Inductive AlertStatus : Type :=
| Never
| SecondsAgo (seconds : Z).

(** What [system_monitor] prints, one constructor per [print] statement. *)
Inductive StatusLine : Type :=
| StatusHeader                                   (* "SYSTEM STATUS" *)
| StatusMonitored (pairs : list string)          (* "Monitored pairs: ..." *)
| StatusQueueDepth (depth : nat)                 (* "Queue depth: ..." *)
| StatusLatest                                   (* "Latest alerts:" *)
| StatusPair (pair : string) (price : Q) (status : AlertStatus).

(** The line of one pair; [t] is the value [time.time()] returns while the
    line is built. *)
Definition pair_status (a : ForexAgent) (t : Z) (pair : string) : result StatusLine :=
  state <- dict_get (market_state a) pair ;;
  let alert_status :=
    if 0 <? last_alert state then SecondsAgo (t - last_alert state) else Never in
  Ok (StatusPair pair (price state) alert_status).

(** The lines of the [for pair in self.monitored_pairs] loop, and the
    exception that ended it, if any. *)
Fixpoint pair_statuses (a : ForexAgent) (clock : string -> Z) (pairs : list string)
    : list StatusLine * option exn :=
  match pairs with
  | [] => ([], None)
  | pair_ :: rest =>
      match pair_status a (clock pair_) pair_ with
      | Raise e => ([], Some e)
      | Ok line =>
          let '(lines, raised) := pair_statuses a clock rest in
          (line :: lines, raised)
      end
  end.

(** One round of [system_monitor] after its sleep: the lines printed, and
    the exception that ended the round, if any.  [clock pair] is the clock
    value read for the line of [pair]. *)
Definition system_monitor (a : ForexAgent) (clock : string -> Z)
    : list StatusLine * option exn :=
  let '(lines, raised) := pair_statuses a clock monitored_pairs in
  (StatusHeader :: StatusMonitored monitored_pairs ::
   StatusQueueDepth (length (_queue (event_queue a))) :: StatusLatest :: lines,
   raised).

(** Every monitored pair has its [market_state] entry. *)
Definition all_monitored (a : ForexAgent) : Prop :=
  forall pair, pair ∈ monitored_pairs -> is_Some (market_state a !! pair).

(** The line [system_monitor] prints for a pair in state [state] at clock
    value [t]. *)
Definition status_line (pair : string) (state : PairState) (t : Z) : StatusLine :=
  StatusPair pair (price state)
    (if 0 <? last_alert state then SecondsAgo (t - last_alert state) else Never).
(** * Properties *)

(** ** Arithmetic of heap positions *)

Lemma parent_spec (i : nat) :
  (0 < i)%nat -> (i = 2 * parent i + 1 \/ i = 2 * parent i + 2)%nat.
Proof.
  intros Hi. unfold parent. change (Nat.shiftr (i - 1) 1) with (Nat.div2 (i - 1)).
  rewrite Nat.div2_div.
  pose proof (Nat.div_mod_eq (i - 1) 2) as Hd.
  pose proof (Nat.mod_upper_bound (i - 1) 2) as Hm.
  lia.
Qed.

Lemma parent_child (c pos : nat) :
  (0 < c)%nat -> parent c = pos <-> (c = 2 * pos + 1 \/ c = 2 * pos + 2)%nat.
Proof.
  intros Hc. split.
  - intros <-. by apply parent_spec.
  - intros [-> | ->]; unfold parent;
      change (Nat.shiftr ?x 1) with (Nat.div2 x); rewrite Nat.div2_div.
    + replace (2 * pos + 1 - 1)%nat with (pos * 2)%nat by lia.
      apply Nat.div_mul; lia.
    + replace (2 * pos + 2 - 1)%nat with (1 + pos * 2)%nat by lia.
      rewrite Nat.div_add by lia. reflexivity.
Qed.

Lemma parent_lt (i : nat) : (0 < i)%nat -> (parent i < i)%nat.
Proof. intros Hi. destruct (parent_spec i Hi); lia. Qed.

(** ** The key order *)

Lemma key_lt_le (a b : Entry) : key_lt a b -> key_le a b.
Proof. unfold key_lt, key_le. lia. Qed.

Lemma key_le_trans (a b c : Entry) : key_le a b -> key_le b c -> key_le a c.
Proof. unfold key_le. lia. Qed.

Lemma key_not_lt (a b : Entry) : ~ key_lt a b -> key_le b a.
Proof. unfold key_lt, key_le. lia. Qed.

Lemma key_le_refl (a : Entry) : key_le a a.
Proof. unfold key_le. lia. Qed.

Create HintDb key_order.
#[local] Hint Resolve key_lt_le key_not_lt key_le_refl : key_order.

Lemma entry_lt_distinct (a b : Entry) :
  keyof a <> keyof b -> entry_lt a b = Ok (bool_decide (key_lt a b)).
Proof.
  intros Hne. unfold entry_lt, key_lt.
  destruct (Z.eqb_spec (e_priority a) (e_priority b)) as [Hp | Hp]; simpl.
  - destruct (Z.eqb_spec (e_time a) (e_time b)) as [Ht | Ht]; simpl.
    + exfalso. apply Hne. unfold keyof. congruence.
    + f_equal. destruct (Z.ltb_spec (e_time a) (e_time b));
        [rewrite bool_decide_eq_true_2 | rewrite bool_decide_eq_false_2]; auto; lia.
  - f_equal. destruct (Z.ltb_spec (e_priority a) (e_priority b));
      [rewrite bool_decide_eq_true_2 | rewrite bool_decide_eq_false_2]; auto; lia.
Qed.

(** Two positions of a list with pairwise distinct keys hold distinct keys. *)
Lemma distinct_keys (h : list Entry) (i j : nat) (a b : Entry) :
  NoDup (keyof <$> h) -> i <> j -> h !! i = Some a -> h !! j = Some b ->
  keyof a <> keyof b.
Proof.
  intros Hnd Hij Ha Hb Heq. apply Hij.
  apply (NoDup_lookup _ i j (keyof a) Hnd).
  - by rewrite list_lookup_fmap, Ha.
  - by rewrite list_lookup_fmap, Hb, Heq.
Qed.

(** ** Exchanging two positions *)

Lemma insert_head_perm (l : list Entry) (j : nat) (a b : Entry) :
  l !! j = Some b -> b :: <[j := a]> l ≡ₚ a :: l.
Proof.
  revert j. induction l as [| c t IH]; intros [| j] Hj; simplify_eq/=.
  - apply perm_swap.
  - rewrite perm_swap, (IH j Hj). apply perm_swap.
Qed.

Lemma insert_swap_perm (h : list Entry) (i j : nat) (a b : Entry) :
  h !! i = Some a -> h !! j = Some b -> <[i := b]> (<[j := a]> h) ≡ₚ h.
Proof.
  revert i j. induction h as [| c t IH]; intros [| i] [| j] Hi Hj; simplify_eq/=.
  - done.
  - by apply insert_head_perm.
  - by apply insert_head_perm.
  - f_equiv. by apply IH.
Qed.

(** ** [_siftdown] restores the heap *)

Lemma is_heap_of_sift_inv (h : list Entry) (pos : nat) :
  sift_inv h pos -> (0 < pos -> ordered_at h pos)%nat -> is_heap h.
Proof.
  intros [Hall _] Hpos i Hi. destruct (decide (i = pos)) as [-> | Hne]; auto.
Qed.

Lemma siftdown_loop_ok (fuel : nat) :
  forall (h : list Entry) (x : Entry) (pos : nat),
    (pos <= fuel)%nat -> (pos < length h)%nat ->
    NoDup (keyof <$> <[pos := x]> h) ->
    sift_inv (<[pos := x]> h) pos ->
    exists h', heapq.siftdown_loop fuel h x 0 pos = Ok h' /\
               is_heap h' /\ h' ≡ₚ <[pos := x]> h.
Proof.
  induction fuel as [| fuel IH]; intros h x pos Hfuel Hlen Hnd Hinv.
  - exists (<[pos := x]> h). split; [done | split; [| done]].
    apply (is_heap_of_sift_inv _ pos Hinv). lia.
  - cbn [heapq.siftdown_loop]. destruct (decide (0 < pos)%nat) as [Hpos | Hpos].
    2: { exists (<[pos := x]> h). split; [done | split; [| done]].
         apply (is_heap_of_sift_inv _ pos Hinv). lia. }
    change (Nat.shiftr (pos - 1) 1) with (parent pos).
    pose proof (parent_lt pos Hpos) as Hpar.
    destruct (lookup_lt_is_Some_2 h (parent pos)) as [b Hb]; [lia |].
    rewrite Hb.
    assert (Hx : <[pos := x]> h !! pos = Some x) by by apply list_lookup_insert_eq.
    assert (Hb' : <[pos := x]> h !! parent pos = Some b)
      by (rewrite list_lookup_insert_ne by lia; done).
    rewrite (entry_lt_distinct x b)
      by (apply (distinct_keys _ pos (parent pos) x b Hnd); [lia | done | done]).
    simpl. case_bool_decide as Hlt.
    + assert (Hperm : <[parent pos := x]> (<[pos := b]> h) ≡ₚ <[pos := x]> h).
      { rewrite <- (list_insert_insert_eq h pos b x).
        by apply insert_swap_perm. }
      destruct (IH (<[pos := b]> h) x (parent pos)) as (h' & Hrun & Hheap & Hp).
      * lia.
      * rewrite length_insert. lia.
      * by rewrite Hperm.
      * destruct Hinv as [Hall Hgrand]. split.
        -- intros i Hi Hne a' b' Ha' Hb''.
           rewrite (list_lookup_insert_ne _ (parent pos) i) in Ha' by lia.
           destruct (decide (i = pos)) as [-> | Hip].
           { rewrite list_lookup_insert_eq in Ha', Hb''
               by (rewrite ?length_insert; lia).
             simplify_eq. auto with key_order. }
           rewrite list_lookup_insert_ne in Ha' by lia.
           destruct (decide (parent i = parent pos)) as [Hs | Hs].
           { rewrite Hs, list_lookup_insert_eq in Hb''
               by (rewrite ?length_insert; lia).
             simplify_eq. apply key_le_trans with b; [by apply key_lt_le |].
             apply (Hall i Hi Hip a' b); [| by rewrite Hs].
             by rewrite list_lookup_insert_ne by lia. }
           rewrite (list_lookup_insert_ne _ (parent pos)) in Hb'' by lia.
           destruct (decide (parent i = pos)) as [Hc | Hc].
           { rewrite Hc, list_lookup_insert_eq in Hb'' by lia.
             injection Hb'' as <-.
             apply (Hgrand i a' b Hpos Hi Hc); [| done].
             by rewrite list_lookup_insert_ne by lia. }
           rewrite list_lookup_insert_ne in Hb'' by lia.
           apply (Hall i Hi Hip a' b'); by rewrite list_lookup_insert_ne by lia.
        -- intros c a' g Hpp Hc Hcp Ha' Hg.
           pose proof (parent_lt c Hc) as Hpc.
           pose proof (parent_lt (parent pos) Hpp) as Hppp.
           rewrite !list_lookup_insert_ne in Hg by lia.
           assert (Hbg : key_le g b).
           { apply (Hall (parent pos) Hpp); [lia | done |].
             by rewrite list_lookup_insert_ne by lia. }
           rewrite (list_lookup_insert_ne _ (parent pos) c) in Ha' by lia.
           destruct (decide (c = pos)) as [-> | Hcpos].
           { rewrite list_lookup_insert_eq in Ha' by lia. by simplify_eq. }
           rewrite list_lookup_insert_ne in Ha' by lia.
           apply key_le_trans with b; [done |].
           apply (Hall c Hc Hcpos a' b); [| by rewrite Hcp].
           by rewrite list_lookup_insert_ne by lia.
      * exists h'. split; [done | split; [done |]]. by rewrite Hp.
    + exists (<[pos := x]> h). split; [done | split; [| done]].
      apply (is_heap_of_sift_inv _ pos Hinv). intros _ a' b' Ha' Hb''.
      simplify_eq. auto with key_order.
Qed.

(** The fuel of [siftdown_loop] only bounds the number of iterations: any
    amount of at least [pos] gives the same result. *)
Lemma siftdown_loop_fuel (f1 : nat) :
  forall (f2 : nat) (h : list Entry) (x : Entry) (s pos : nat),
    (pos <= f1)%nat -> (pos <= f2)%nat ->
    heapq.siftdown_loop f1 h x s pos = heapq.siftdown_loop f2 h x s pos.
Proof.
  induction f1 as [| f1 IH]; intros [| f2] h x s pos H1 H2;
    cbn [heapq.siftdown_loop]; try done.
  - destruct (decide (s < pos)%nat); [lia | done].
  - destruct (decide (s < pos)%nat); [lia | done].
  - destruct (decide (s < pos)%nat) as [Hs | Hs]; [| done].
    change (Nat.shiftr (pos - 1) 1) with (parent pos).
    destruct (h !! parent pos) as [b |]; [| done].
    destruct (entry_lt x b) as [[|] | e]; simpl; try done.
    assert (parent pos < pos)%nat by (apply parent_lt; lia).
    apply IH; lia.
Qed.

(** Likewise for [siftup_loop]: [endpos - pos] iterations are enough. *)
Lemma siftup_loop_fuel (f1 : nat) :
  forall (f2 : nat) (h : list Entry) (endpos pos : nat),
    (endpos - pos <= f1)%nat -> (endpos - pos <= f2)%nat ->
    heapq.siftup_loop f1 h endpos pos = heapq.siftup_loop f2 h endpos pos.
Proof.
  induction f1 as [| f1 IH]; intros [| f2] h endpos pos H1 H2;
    cbn [heapq.siftup_loop]; try done.
  - destruct (decide (2 * pos + 1 < endpos)%nat); [lia | done].
  - destruct (decide (2 * pos + 1 < endpos)%nat); [lia | done].
  - destruct (decide (2 * pos + 1 < endpos)%nat) as [Hc | Hc]; [| done].
    destruct (decide (2 * pos + 1 + 1 < endpos)%nat) as [Hr | Hr].
    + destruct (h !! (2 * pos + 1)%nat) as [l |]; [| done].
      destruct (h !! (2 * pos + 1 + 1)%nat) as [r |]; [| done].
      destruct (entry_lt l r) as [[|] | e]; cbn [bind]; try done.
      * destruct (h !! (2 * pos + 1)%nat); [apply IH; lia | done].
      * destruct (h !! (2 * pos + 1 + 1)%nat); [apply IH; lia | done].
    + cbn [bind]. destruct (h !! (2 * pos + 1)%nat); [apply IH; lia | done].
Qed.

(** ** The first loop of [_siftup] moves the hole to a leaf *)

Lemma siftup_loop_ok (fuel : nat) :
  forall (h : list Entry) (x : Entry) (pos : nat),
    (length h - pos <= fuel)%nat -> (pos < length h)%nat ->
    NoDup (keyof <$> <[pos := x]> h) ->
    hole_inv (<[pos := x]> h) pos ->
    exists h' leaf,
      heapq.siftup_loop fuel h (length h) pos = Ok (h', leaf) /\
      length h' = length h /\ (leaf < length h)%nat /\
      (length h <= 2 * leaf + 1)%nat /\
      <[leaf := x]> h' ≡ₚ <[pos := x]> h /\
      hole_inv (<[leaf := x]> h') leaf.
Proof.
  induction fuel as [| fuel IH]; intros h x pos Hfuel Hlen Hnd Hinv; [lia |].
  cbn [heapq.siftup_loop].
  destruct (decide (2 * pos + 1 < length h)%nat) as [Hchild | Hleaf].
  2: { exists h, pos. repeat split; try done; try lia; apply Hinv. }
  destruct (lookup_lt_is_Some_2 h (2 * pos + 1)) as [l Hl]; [lia |].
  (* the chosen child [c] and the fact that its sibling is not smaller *)
  assert (exists c v,
    (if decide (2 * pos + 1 + 1 < length h)%nat
     then match h !! (2 * pos + 1)%nat, h !! (2 * pos + 1 + 1)%nat with
          | Some l, Some r =>
              lt <- entry_lt l r ;;
              Ok (if (lt : bool) then (2 * pos + 1)%nat else (2 * pos + 1 + 1)%nat)
          | _, _ => Raise IndexError
          end
     else Ok (2 * pos + 1)%nat) = Ok c /\
    (c = 2 * pos + 1 \/ c = 2 * pos + 2)%nat /\ (c < length h)%nat /\
    h !! c = Some v /\
    (forall s w, (s = 2 * pos + 1 \/ s = 2 * pos + 2)%nat -> h !! s = Some w ->
                 key_le v w)) as (c & v & Hsel & Hc & Hclen & Hv & Hmin).
  { destruct (decide (2 * pos + 1 + 1 < length h)%nat) as [Hr | Hr].
    - destruct (lookup_lt_is_Some_2 h (2 * pos + 1 + 1)) as [r Hr']; [lia |].
      rewrite Hl, Hr'.
      rewrite (entry_lt_distinct l r).
      2: { apply (distinct_keys (<[pos := x]> h) (2 * pos + 1) (2 * pos + 1 + 1));
             [done | lia | |]; by rewrite list_lookup_insert_ne by lia. }
      cbn [bind]. case_bool_decide as Hlt.
      + exists (2 * pos + 1)%nat, l. repeat split; try done; try lia.
        intros s w [-> | ->] Hw.
        * rewrite Hl in Hw. simplify_eq. auto with key_order.
        * replace (2 * pos + 2)%nat with (2 * pos + 1 + 1)%nat in Hw by lia.
          rewrite Hr' in Hw. simplify_eq. auto with key_order.
      + exists (2 * pos + 1 + 1)%nat, r. repeat split; try done; try lia.
        intros s w [-> | ->] Hw.
        * rewrite Hl in Hw. simplify_eq. auto with key_order.
        * replace (2 * pos + 2)%nat with (2 * pos + 1 + 1)%nat in Hw by lia.
          rewrite Hr' in Hw. simplify_eq. auto with key_order.
    - exists (2 * pos + 1)%nat, l. repeat split; try done; try lia.
      intros s w [-> | ->] Hw.
      + rewrite Hl in Hw. simplify_eq. auto with key_order.
      + apply lookup_lt_Some in Hw. lia. }
  rewrite Hsel. cbn [bind]. rewrite Hv.
  assert (Hcpos : parent c = pos) by (apply parent_child; lia).
  assert (Hperm : <[c := x]> (<[pos := v]> h) ≡ₚ <[pos := x]> h).
  { rewrite <- (list_insert_insert_eq h pos v x).
    apply insert_swap_perm.
    - by rewrite list_lookup_insert_ne by lia.
    - by apply list_lookup_insert_eq. }
  destruct (IH (<[pos := v]> h) x c) as (h' & leaf & Hrun & Hl' & Hlf & Hlf2 & Hp & Hin).
  - rewrite length_insert. lia.
  - rewrite length_insert. lia.
  - by rewrite Hperm.
  - destruct Hinv as [Hall Hgrand]. split.
    + intros i Hi Hic Hpic a b Ha Hb.
      pose proof (parent_lt i Hi) as Hpi.
      rewrite (list_lookup_insert_ne _ c i) in Ha by lia.
      rewrite (list_lookup_insert_ne _ c (parent i)) in Hb by lia.
      destruct (decide (i = pos)) as [-> | Hip].
      { rewrite list_lookup_insert_eq in Ha by lia.
        rewrite list_lookup_insert_ne in Hb by lia. simplify_eq.
        apply (Hgrand c a b Hi); [lia | done | |];
          by rewrite list_lookup_insert_ne by lia. }
      rewrite list_lookup_insert_ne in Ha by lia.
      destruct (decide (parent i = pos)) as [Hs | Hs].
      { rewrite Hs, list_lookup_insert_eq in Hb by lia. simplify_eq.
        apply (Hmin i a); [| done]. apply parent_child; [lia | done]. }
      rewrite list_lookup_insert_ne in Hb by lia.
      apply (Hall i Hi Hip Hs a b); by rewrite list_lookup_insert_ne by lia.
    + intros d a b Hc0 Hd Hdc Ha Hb.
      pose proof (parent_lt d Hd) as Hpd.
      rewrite Hcpos in Hb.
      rewrite (list_lookup_insert_ne _ c pos) in Hb by lia.
      rewrite list_lookup_insert_eq in Hb by lia.
      rewrite !list_lookup_insert_ne in Ha by lia.
      injection Hb as <-.
      assert (Hdo : ordered_at (<[pos := x]> h) d) by (apply Hall; lia).
      apply (Hdo a v); rewrite ?Hdc; rewrite list_lookup_insert_ne by lia; done.
  - exists h', leaf. rewrite length_insert in Hrun, Hl', Hlf, Hlf2.
    rewrite Hrun.
    repeat split; try done; [by rewrite Hp | apply Hin | apply Hin].
Qed.

(** ** [heappush] and [heappop] on a heap with pairwise distinct keys *)

Lemma heappush_ok (h : list Entry) (x : Entry) :
  is_heap h -> NoDup (keyof <$> (h ++ [x])) ->
  exists h', heapq.heappush h x = Ok h' /\ is_heap h' /\ h' ≡ₚ x :: h.
Proof.
  intros Hheap Hnd. unfold heapq.heappush, heapq._siftdown.
  replace (length (h ++ [x]) - 1)%nat with (length h)
    by (rewrite length_app; simpl; lia).
  assert (Hx : (h ++ [x]) !! length h = Some x) by apply list_lookup_middle, eq_refl.
  rewrite Hx.
  assert (Hid : <[length h := x]> (h ++ [x]) = h ++ [x]) by by apply list_insert_id.
  destruct (siftdown_loop_ok (length h) (h ++ [x]) x (length h))
    as (h' & Hrun & Hh' & Hp).
  - lia.
  - rewrite length_app. simpl. lia.
  - by rewrite Hid.
  - rewrite Hid. split.
    + intros i Hi Hne a b Ha Hb.
      assert (i < length h)%nat.
      { apply lookup_lt_Some in Ha. rewrite length_app in Ha. simpl in Ha. lia. }
      pose proof (parent_lt i Hi).
      rewrite lookup_app_l in Ha, Hb by lia. by apply (Hheap i Hi).
    + intros c a b _ Hc Hcp Ha _.
      apply lookup_lt_Some in Ha. rewrite length_app in Ha. simpl in Ha.
      apply parent_child in Hcp; lia.
  - exists h'. rewrite Hrun. split; [done | split; [done |]].
    rewrite Hp, Hid. by rewrite Permutation_app_comm.
Qed.

(** The root of a heap is a least element. *)
Lemma root_min (h : list Entry) (r : Entry) :
  is_heap h -> h !! 0%nat = Some r ->
  forall i a, h !! i = Some a -> key_le r a.
Proof.
  intros Hheap Hr i. induction (lt_wf i) as [i _ IH]. intros a Ha.
  destruct (decide (i = 0)%nat) as [-> | Hi].
  - simplify_eq. auto with key_order.
  - assert (Hpi : (parent i < i)%nat) by (apply parent_lt; lia).
    destruct (lookup_lt_is_Some_2 h (parent i)) as [b Hb].
    { apply lookup_lt_Some in Ha. lia. }
    apply key_le_trans with b; [by apply (IH (parent i)) |].
    apply (Hheap i); [lia | done | done].
Qed.

Lemma heappop_ok (h : list Entry) :
  is_heap h -> NoDup (keyof <$> h) -> h <> [] ->
  exists m h', heapq.heappop h = Ok (m, h') /\ is_heap h' /\
               h ≡ₚ m :: h' /\ Forall (key_le m) h'.
Proof.
  intros Hheap Hnd Hne. unfold heapq.heappop.
  destruct (last h) as [lastelt |] eqn:Hlast; [| by apply last_None in Hlast].
  apply last_Some in Hlast as [body ->]. rewrite removelast_last.
  destruct body as [| r t].
  { exists lastelt, []. split; [done | split; [| split; [done | constructor]]].
    intros i _ a b Ha. done. }
  cbn [insert list_insert].
  change (<[0%nat := lastelt]> (r :: t)) with (lastelt :: t).
  assert (Hmin : forall a, a ∈ (r :: t) ++ [lastelt] -> key_le r a).
  { intros a [i Hi]%list_elem_of_lookup. by apply (root_min _ r Hheap eq_refl i). }
  assert (Hnd0 : NoDup (keyof <$> lastelt :: t)).
  { assert (Hsub : ((r :: t) ++ [lastelt]) ≡ₚ r :: lastelt :: t).
    { simpl. f_equiv. by rewrite Permutation_app_comm. }
    rewrite Hsub in Hnd. rewrite fmap_cons in Hnd. by apply NoDup_cons in Hnd as [_ ?]. }
  unfold heapq._siftup. cbn [lookup list_lookup]. rewrite Nat.sub_0_r.
  destruct (siftup_loop_ok (length (lastelt :: t)) (lastelt :: t) lastelt 0)
    as (h1 & leaf & Hrun & Hlen1 & Hleaf & Hleaf2 & Hp1 & Hinv1).
  - lia.
  - simpl. lia.
  - done.
  - split.
    + intros i Hi _ Hpi a b Ha Hb.
      pose proof (parent_lt i Hi).
      destruct i as [| i]; [lia |]. destruct (parent (S i)) as [| p] eqn:Hp; [done |].
      cbn [insert list_insert lookup list_lookup] in Ha, Hb.
      apply (Hheap (S i) Hi a b).
      * apply lookup_lt_Some in Ha as Hl. 
        change (((r :: t) ++ [lastelt]) !! S i) with ((t ++ [lastelt]) !! i).
        rewrite lookup_app_l by done. done.
      * rewrite Hp. apply lookup_lt_Some in Hb as Hl.
        change (((r :: t) ++ [lastelt]) !! S p) with ((t ++ [lastelt]) !! p).
        rewrite lookup_app_l by done. done.
    + intros c a b Hc. lia.
  - rewrite Hrun. cbn [bind]. unfold heapq._siftdown.
    rewrite list_lookup_insert_eq by lia.
    change (<[0%nat := lastelt]> (lastelt :: t)) with (lastelt :: t) in Hp1.
    destruct (siftdown_loop_ok leaf (<[leaf := lastelt]> h1) lastelt leaf)
      as (h2 & Hrun2 & Hheap2 & Hp2).
    + lia.
    + rewrite length_insert. lia.
    + rewrite list_insert_insert_eq, Hp1. done.
    + rewrite list_insert_insert_eq. destruct Hinv1 as [Hall Hgrand].
      split; [| done]. intros i Hi Hil.
      destruct (decide (parent i = leaf)) as [Hpl | Hpl]; [| by apply Hall].
      intros a b Ha _. apply lookup_lt_Some in Ha. rewrite length_insert in Ha.
      apply parent_child in Hpl; lia.
    + rewrite Hrun2. cbn [bind]. exists r, h2.
      rewrite list_insert_insert_eq in Hp2.
      assert (Hp3 : h2 ≡ₚ lastelt :: t) by by rewrite Hp2, Hp1.
      split; [done | split; [done | split]].
      * rewrite Hp3. simpl. f_equiv. by rewrite Permutation_app_comm.
      * apply Forall_forall. intros a Ha. apply Hmin.
        rewrite Hp3 in Ha. 
        apply elem_of_cons in Ha as [-> | Ha]; set_solver.
Qed.

(** ** Sequences of [put] and [get] *)

Lemma put_all_ok (pushes : list Entry) :
  forall q, is_heap (_queue q) -> NoDup (keyof <$> (_queue q ++ pushes)) ->
  exists q', put_all q pushes = Ok q' /\ is_heap (_queue q') /\
             _queue q' ≡ₚ _queue q ++ pushes.
Proof.
  induction pushes as [| p rest IH]; intros q Hheap Hnd.
  - exists q. rewrite app_nil_r. by repeat split.
  - cbn [put_all]. unfold put.
    replace (mkEntry (e_priority p) (e_time p) (e_event p)) with p by by destruct p.
    destruct (heappush_ok (_queue q) p Hheap) as (h' & Hrun & Hh' & Hp).
    { pose proof Hnd as Hnd1.
      replace (_queue q ++ p :: rest) with ((_queue q ++ [p]) ++ rest) in Hnd1
        by (by rewrite <- app_assoc).
      rewrite fmap_app in Hnd1. by apply NoDup_app in Hnd1 as [? _]. }
    rewrite Hrun. cbn [bind].
    destruct (IH {| _queue := h'; _event_available := true |}) as (q' & Hq' & Hhq & Hpq).
    + done.
    + cbn [_queue]. rewrite Hp. simpl.
      by rewrite <- Permutation_middle in Hnd.
    + exists q'. split; [done | split; [done |]].
      rewrite Hpq. cbn [_queue]. rewrite Hp. simpl. by rewrite <- Permutation_middle.
Qed.

Lemma get_n_ok (n : nat) :
  forall q, length (_queue q) = n -> is_heap (_queue q) ->
            NoDup (keyof <$> _queue q) ->
  exists out, get_n n q = Ok (e_event <$> out) /\ out ≡ₚ _queue q /\
              StronglySorted key_le out.
Proof.
  induction n as [| n IH]; intros q Hlen Hheap Hnd.
  - exists []. apply nil_length_inv in Hlen. rewrite Hlen.
    repeat split; [done | constructor].
  - cbn [get_n]. unfold get.
    destruct (_queue q) as [| e0 t] eqn:Hq; [done |].
    destruct (heappop_ok (e0 :: t) Hheap Hnd) as (m & h' & Hpop & Hh' & Hp & Hmin);
      [done |].
    rewrite Hpop. cbn [bind].
    assert (Hnd' : NoDup (keyof <$> h')).
    { rewrite Hp, fmap_cons in Hnd. by apply NoDup_cons in Hnd as [_ ?]. }
    destruct (IH {| _queue := h'; _event_available := _event_available q |})
      as (out & Hrun & Hpo & Hso).
    + cbn [_queue]. apply Permutation_length in Hp. simpl in *. lia.
    + done.
    + done.
    + rewrite Hrun. cbn [bind]. exists (m :: out).
      cbn [_queue] in Hpo. split; [done | split].
      * by rewrite Hp, Hpo.
      * constructor; [done |]. by rewrite Hpo.
Qed.

(** ** From the key order to priority classes and arrival order *)

Lemma StronglySorted_weaken {A} (R R' : A -> A -> Prop) (l : list A) :
  (forall x y, x ∈ l -> y ∈ l -> R x y -> R' x y) ->
  StronglySorted R l -> StronglySorted R' l.
Proof.
  intros Himp Hs. induction Hs as [| x l Hs IH Hx]; constructor.
  - apply IH. intros y z Hy Hz. apply Himp; by right.
  - apply Forall_forall. intros y Hy. rewrite Forall_forall in Hx.
    apply Himp; [by left | by right | by apply Hx].
Qed.

Lemma StronglySorted_filter {A} (R : A -> A -> Prop) (P : A -> Prop)
    `{forall x, Decision (P x)} (l : list A) :
  StronglySorted R l -> StronglySorted R (filter P l).
Proof.
  intros Hs. induction Hs as [| x l Hs IH Hx]; [constructor |].
  rewrite filter_cons. case_decide; [| done].
  constructor; [done |]. apply Forall_forall. intros y Hy.
  apply list_elem_of_filter in Hy as [_ Hy]. rewrite Forall_forall in Hx. auto.
Qed.

Lemma NoDup_fmap_inj_on {A B} (f : A -> B) (l : list A) (x y : A) :
  NoDup (f <$> l) -> x ∈ l -> y ∈ l -> f x = f y -> x = y.
Proof.
  intros Hnd [i Hi]%list_elem_of_lookup [j Hj]%list_elem_of_lookup Hxy.
  assert (i = j).
  { apply (NoDup_lookup _ i j (f x) Hnd).
    - by rewrite list_lookup_fmap, Hi.
    - by rewrite list_lookup_fmap, Hj, Hxy. }
  subst. congruence.
Qed.

Lemma increasing_times_NoDup (pushes : list Entry) :
  Sorted Z.lt (e_time <$> pushes) -> NoDup (e_time <$> pushes).
Proof.
  intros Hs. apply Sorted_StronglySorted in Hs; [| intros ???; lia].
  induction Hs as [| x l Hs IH Hx]; constructor; [| done].
  intros Hin. rewrite Forall_forall in Hx. specialize (Hx x Hin). lia.
Qed.

Lemma times_NoDup_keys (l : list Entry) :
  NoDup (e_time <$> l) -> NoDup (keyof <$> l).
Proof.
  intros Hnd. apply (NoDup_fmap_1 snd).
  rewrite <- list_fmap_compose. done.
Qed.

Lemma increasing_times_sorted (pushes : list Entry) :
  Sorted Z.lt (e_time <$> pushes) ->
  StronglySorted (fun a b => e_time a < e_time b) pushes.
Proof.
  intros Hs. apply Sorted_StronglySorted in Hs; [| intros ???; lia].
  induction pushes as [| a l IH]; [constructor |].
  rewrite fmap_cons in Hs. apply StronglySorted_inv in Hs as [Hs Hall].
  constructor; [by apply IH |]. by rewrite Forall_fmap in Hall.
Qed.

(** With pairwise distinct keys every push and every pop succeeds, and the
    entries come out in ascending [(priority, time)] order. *)
Lemma queue_sorted_by_key (pushes : list Entry) :
  NoDup (keyof <$> pushes) ->
  exists q out,
    put_all new_queue pushes = Ok q /\
    get_n (length pushes) q = Ok (e_event <$> out) /\
    out ≡ₚ pushes /\ StronglySorted key_le out.
Proof.
  intros Hnd.
  destruct (put_all_ok pushes new_queue) as (q & Hput & Hheap & Hperm).
  { intros i _ a b Ha. done. }
  { done. }
  simpl in Hperm.
  destruct (get_n_ok (length pushes) q) as (out & Hget & Hpo & Hso).
  - by rewrite Hperm.
  - done.
  - by rewrite Hperm.
  - exists q, out. repeat split; try done. by rewrite Hpo.
Qed.

(** C1 (as amended): when the clock readings taken by successive [put] calls
    strictly increase, every push succeeds and the [get] calls return the
    events in ascending priority class, and within a priority class in push
    order. *)
Theorem queue_order_increasing_clock (pushes : list Entry) :
  Sorted Z.lt (e_time <$> pushes) -> drains_in_order pushes.
Proof.
  intros Hinc.
  pose proof (increasing_times_NoDup pushes Hinc) as Hndt.
  destruct (queue_sorted_by_key pushes (times_NoDup_keys _ Hndt))
    as (q & out & Hput & Hget & Hperm & Hso).
  exists q, (e_event <$> out). split; [done | split; [done |]].
  exists out. split; [done | split].
  - apply (StronglySorted_weaken key_le); [| done].
    unfold key_le. intros; lia.
  - intros p.
    apply (StronglySorted_unique_strong (fun a b => e_time a <= e_time b)).
    + intros x1 x2 [_ H1]%list_elem_of_filter [_ H2]%list_elem_of_filter Hle Hge.
      apply (NoDup_fmap_inj_on e_time pushes); [done | by rewrite <- Hperm | done | lia].
    + apply (StronglySorted_weaken key_le); [| by apply StronglySorted_filter].
      intros x y [Hx _]%list_elem_of_filter [Hy _]%list_elem_of_filter.
      unfold key_le. lia.
    + apply (StronglySorted_weaken (fun a b => e_time a < e_time b)).
      * intros; lia.
      * by apply StronglySorted_filter, increasing_times_sorted.
    + by rewrite Hperm.
Qed.

Lemma queue_order_increasing_clock_witness :
  let pushes :=
    [mkEntry 3 100 (NewsEvent "Fed signals pause in rate hikes" "EUR/USD");
     mkEntry 1 101 (PriceEvent "USD/JPY" 2 (11 # 10));
     mkEntry 3 102 (NewsEvent "Bank of Japan intervenes in FX market" "USD/JPY");
     mkEntry 1 103 (NewsEvent "Political crisis deepens in the UK" "GBP/USD")] in
  Sorted Z.lt (e_time <$> pushes) /\ drains_in_order pushes.
Proof.
  cbv zeta.
  assert (Hinc : Sorted Z.lt [100; 101; 102; 103]) by (repeat constructor).
  split; [exact Hinc |].
  apply queue_order_increasing_clock. exact Hinc.
Defined.

(** C1 (as stated) fails: two pushes of the same priority class whose clock
    readings decrease (the wall clock was set back between them) are
    dequeued in the reverse of their push order. *)
Lemma queue_order_clock_set_back :
  let first := NewsEvent "ECB announces emergency rate hike" "EUR/USD" in
  let second := NewsEvent "Political crisis deepens in the UK" "GBP/USD" in
  let pushes := [mkEntry 1 10 first; mkEntry 1 9 second] in
  (exists q, put_all new_queue pushes = Ok q /\ get_n 2 q = Ok [second; first]) /\
  ~ drains_in_order pushes.
Proof.
  cbv zeta. split.
  - eexists. split; reflexivity.
  - intros (q & events & Hput & Hget & out & Hev & _ & Hfifo).
    vm_compute in Hput. injection Hput as <-.
    vm_compute in Hget. injection Hget as <-.
    specialize (Hfifo 1).
    destruct out as [| a [| b [| c out]]]; try discriminate Hev.
    injection Hev as Ha Hb.
    rewrite !filter_cons in Hfifo. cbn [e_priority] in Hfifo.
    repeat case_decide; simplify_eq/=.
Qed.

(** ** The resource lock *)

Lemma holders_insert (ps : list Sched.pc) (i : nat) (p p' : Sched.pc) :
  ps !! i = Some p ->
  (Sched.holders (<[i := p']> ps) + (if Sched.in_critical_section p then 1 else 0) =
   Sched.holders ps + (if Sched.in_critical_section p' then 1 else 0))%nat.
Proof.
  unfold Sched.holders. revert i.
  induction ps as [| c t IH]; intros [| i] Hi; simplify_eq/=.
  - rewrite !filter_cons.
    destruct (Sched.in_critical_section p), (Sched.in_critical_section p');
      repeat case_decide; simpl; try done; lia.
  - specialize (IH i Hi). rewrite !filter_cons.
    case_decide; simpl; lia.
Qed.

Lemma holders_two (ps : list Sched.pc) (i j : nat) (e1 e2 : Event) :
  i <> j -> ps !! i = Some (Sched.Handling e1) -> ps !! j = Some (Sched.Handling e2) ->
  (2 <= Sched.holders ps)%nat.
Proof.
  intros Hij Hi Hj.
  pose proof (holders_insert ps i _ Sched.Sleeping Hi) as H1.
  assert (Hj' : <[i := Sched.Sleeping]> ps !! j = Some (Sched.Handling e2))
    by by rewrite list_lookup_insert_ne.
  pose proof (holders_insert _ j _ Sched.Sleeping Hj') as H2.
  simpl in H1, H2. lia.
Qed.

Lemma holders_replicate (n : nat) : Sched.holders (replicate n Sched.AwaitGet) = 0%nat.
Proof.
  unfold Sched.holders. induction n as [| n IH]; [done |].
  simpl. rewrite filter_cons. case_decide; [done | exact IH].
Qed.

Lemma lock_inv_step (s s' : Sched.state) :
  lock_inv s -> Sched.step s s' -> lock_inv s'.
Proof.
  unfold lock_inv. intros Hinv Hstep.
  destruct Hstep as [s pr t ev q' Hput | s i ev q' Hi Hget | s i e Hi Hget
                    | s i q' Hi Hget | s i ev Hi Hfree | s i ev Hi | s i ev e Hi
                    | s i Hi];
    cbn [Sched.procs Sched.locked]; try done.
  - pose proof (holders_insert _ i _ (Sched.AwaitLock ev) Hi) as H.
    simpl in H. lia.
  - pose proof (holders_insert _ i _ (Sched.Terminated e) Hi) as H.
    simpl in H. lia.
  - pose proof (holders_insert _ i _ (Sched.Handling ev) Hi) as H.
    rewrite Hfree in Hinv. simpl in H. lia.
  - pose proof (holders_insert _ i _ Sched.Sleeping Hi) as H.
    simpl in H. destruct (Sched.locked s); lia.
  - pose proof (holders_insert _ i _ (Sched.Terminated e) Hi) as H.
    simpl in H. destruct (Sched.locked s); lia.
  - pose proof (holders_insert _ i _ Sched.AwaitGet Hi) as H.
    simpl in H. lia.
Qed.

Lemma lock_inv_reachable (n : nat) (s : Sched.state) :
  rtc Sched.step (Sched.init n) s -> lock_inv s.
Proof.
  revert s. apply (rtc_ind_r (R := Sched.step) lock_inv).
  - unfold lock_inv. simpl. apply holders_replicate.
  - intros y z _ Hstep Hy. by apply (lock_inv_step y).
Qed.

(** C2: in every state the tasks can reach, whatever the number of
    processor tasks, of queued events and of pushes by the producers, two
    tasks are never both inside the [async with self.resource_lock] block. *)
Theorem resource_lock_mutual_exclusion (n : nat) (s : Sched.state)
    (i j : nat) (e1 e2 : Event) :
  rtc Sched.step (Sched.init n) s ->
  Sched.procs s !! i = Some (Sched.Handling e1) ->
  Sched.procs s !! j = Some (Sched.Handling e2) ->
  i = j.
Proof.
  intros Hr Hi Hj. destruct (decide (i = j)) as [| Hne]; [done |].
  pose proof (lock_inv_reachable n s Hr) as Hinv. unfold lock_inv in Hinv.
  pose proof (holders_two _ i j e1 e2 Hne Hi Hj).
  destruct (Sched.locked s); lia.
Qed.

(** ** The alert gate *)

(** C6 (as stated) fails: the three ranges cover the hours 0 to 21 only; at
    22 UTC [is_market_hours] answers no. *)
Lemma is_market_hours_not_every_hour :
  is_market_hours 22 = false /\
  ~ (forall hour, 0 <= hour < 24 -> is_market_hours hour = true).
Proof.
  split; [reflexivity |]. intros Hall. specialize (Hall 22). 
  assert (H : is_market_hours 22 = true) by (apply Hall; lia).
  discriminate H.
Qed.

(** C6 (as amended): for the hours 0 to 22, [is_market_hours] answers yes
    exactly below 22: the union of the three ranges is [0, 22), and the
    gate suppresses on time-of-day grounds at 22 UTC. *)
Theorem is_market_hours_until_22 (hour : Z) :
  0 <= hour <= 22 -> (is_market_hours hour = true <-> hour < 22).
Proof.
  intros Hh. unfold is_market_hours.
  destruct (Z.leb_spec 0 hour), (Z.ltb_spec hour 8), (Z.leb_spec 7 hour),
    (Z.ltb_spec hour 17), (Z.leb_spec 12 hour), (Z.ltb_spec hour 22);
    simpl; split; intros; try reflexivity; try discriminate; lia.
Qed.

Lemma is_market_hours_until_22_witness :
  0 <= 21 <= 22 /\ (is_market_hours 21 = true <-> 21 < 22).
Proof.
  split; [lia | apply (is_market_hours_until_22 21); lia].
Defined.

(** The gate of a pair whose entry is still the one of [new_agent] with
    price 1, at a given time and hour. *)
Ltac fresh_pair_gate :=
  exists (mkPairState 1 0 (1 # 10) []);
  split; [vm_compute; reflexivity | split; [simpl; lia | reflexivity]].

(** What [maybe_trigger_alert] does once the gate has let the event through. *)
Lemma maybe_trigger_alert_permitted (a : ForexAgent) (x : Externals)
    (title : Title) (message pair : string) :
  gate_permits a x pair ->
  maybe_trigger_alert a x title message pair =
    let a1 := print (print a (LogAlert title)) (LogMessage message) in
    if negb (configured (environ x)) then Ok (print a1 LogNotConfigured)
    else
      let a2 := record_call a1 (the_call (environ x)) in
      match (response <- voice_call x (the_call (environ x)) ;;
             extract_call_id response) with
      | Ok call_id =>
          Ok (set_last_alert (print a2 (LogCallInitiated call_id)) pair (now x))
      | Raise e => Ok (print a2 (LogCallError e))
      end.
Proof.
  intros (st & Hst & Hcool & Hhours).
  unfold maybe_trigger_alert, dict_get. rewrite Hst. cbn [bind].
  destruct (Z.ltb_spec (now x - last_alert st) 300); [lia |].
  by rewrite Hhours.
Qed.

(** C7: with [last_alert = T] for the pair, the decision taken at [T + 299]
    is a cooldown suppression: one line printed, no call, nothing else
    changed; the decision taken at [T + 301] inside the active hours raises
    the alert, and places the call when the telephony settings are there. *)
Theorem cooldown_299_suppressed_301_permitted (a : ForexAgent)
    (title : Title) (message pair : string) (state : PairState)
    (hour : Z) (env : gmap string string) (gen : result string)
    (vc : VoiceCall -> result Response) :
  market_state a !! pair = Some state ->
  let T := last_alert state in
  maybe_trigger_alert a (mkExternals (T + 299) hour env gen vc) title message pair
    = Ok (print a (LogCooldown pair)) /\
  (is_market_hours hour = true ->
   exists a',
     maybe_trigger_alert a (mkExternals (T + 301) hour env gen vc) title message pair
       = Ok a' /\
     (exists rest, console a' = console a ++ LogAlert title :: LogMessage message :: rest) /\
     (configured env = true -> calls a' = calls a ++ [the_call env])).
Proof.
  intros Hst T. split.
  - unfold maybe_trigger_alert, dict_get. rewrite Hst. cbn [bind now].
    destruct (Z.ltb_spec (T + 299 - last_alert state) 300); [done | subst T; lia].
  - intros Hhours. rewrite maybe_trigger_alert_permitted.
    2: { exists state. cbn [now utc_hour]. subst T. repeat split; [done | lia | done]. }
    cbn [environ voice_call now]. cbv zeta.
    destruct (configured env) eqn:Hc; cbn [negb].
    + destruct (response <- vc (the_call env) ;; extract_call_id response) as [id | e];
        eexists; (split; [reflexivity |]); split; try done; simpl;
        eexists; rewrite <- !app_assoc; reflexivity.
    + eexists. split; [reflexivity |]. split; [| done]. simpl.
      eexists. rewrite <- !app_assoc. reflexivity.
Qed.

(** C4 (as amended): when the gate lets the event through and the telephony
    settings are there, the call is placed; [last_alert] of the pair
    becomes [now] when the call returns and its call id is read; when the
    call or the reading of its response raises, the exception is caught and
    [market_state] stays as it was. *)
Theorem dispatch_success_sets_last_alert (a : ForexAgent) (x : Externals)
    (title : Title) (message pair : string) :
  gate_permits a x pair ->
  configured (environ x) = true ->
  exists a',
    maybe_trigger_alert a x title message pair = Ok a' /\
    call_attempted a a' /\
    ((exists call_id,
        (response <- voice_call x (the_call (environ x)) ;; extract_call_id response)
          = Ok call_id) ->
     last_alert_of a' pair = Some (now x) /\ last_alert_time a' = now x) /\
    ((exists e,
        (response <- voice_call x (the_call (environ x)) ;; extract_call_id response)
          = Raise e) ->
     market_state a' = market_state a /\ last_alert_time a' = last_alert_time a).
Proof.
  intros Hgate Hconf. rewrite (maybe_trigger_alert_permitted _ _ _ _ _ Hgate).
  cbv zeta. rewrite Hconf. cbn [negb].
  destruct Hgate as (st & Hst & _).
  destruct (response <- voice_call x (the_call (environ x)) ;; extract_call_id response)
    as [id | e]; eexists; (split; [reflexivity |]); split.
  - by exists (the_call (environ x)).
  - split; [| intros [? [=]]].
    intros _. unfold last_alert_of. simpl. rewrite lookup_alter_eq, Hst. done.
  - by exists (the_call (environ x)).
  - split; [intros [? [=]] | done].
Qed.

(** C4 (as stated) fails: the gate lets the event through, the settings are
    there and the call is placed, but [voice.call] raises: the pair's
    [last_alert] keeps its old value 0 instead of [now] = 1000. *)
Lemma failed_dispatch_keeps_last_alert :
  let env : gmap string string :=
    list_to_map [("AFRICASTALKING_USERNAME", "sandbox");
                 ("AFRICASTALKING_API_KEY", "key");
                 ("AFRICASTALKING_VIRTUAL_NUMBER", "+254711000111");
                 ("YOUR_PHONE_NUMBER", "+254700000000")] in
  let x := mkExternals 1000 9 env (Ok "analysis")
             (fun _ => Raise (CollaboratorError "service unavailable")) in
  let a := new_agent (fun _ => 1%Q) in
  gate_permits a x "EUR/USD" /\ configured (environ x) = true /\
  exists a',
    maybe_trigger_alert a x (PriceTitle "EUR/USD" 2) "analysis" "EUR/USD" = Ok a' /\
    call_attempted a a' /\
    last_alert_of a' "EUR/USD" = Some 0 /\
    last_alert_of a' "EUR/USD" <> Some (now x).
Proof.
  cbv zeta. split; [| split; [vm_compute; reflexivity |]].
  - fresh_pair_gate.
  - eexists. split; [vm_compute; reflexivity |]. split.
    + eexists. vm_compute. reflexivity.
    + split; [vm_compute; reflexivity |]. vm_compute. discriminate.
Qed.

Lemma dispatch_success_sets_last_alert_witness :
  let env : gmap string string :=
    list_to_map [("AFRICASTALKING_USERNAME", "sandbox");
                 ("AFRICASTALKING_API_KEY", "key");
                 ("YOUR_PHONE_NUMBER", "+254700000000")] in
  let x := mkExternals 1000 9 env (Ok "analysis")
             (fun _ => Ok (mkResponse (Some [Some "call-1"]))) in
  let a := new_agent (fun _ => 1%Q) in
  exists a',
    maybe_trigger_alert a x (PriceTitle "EUR/USD" 2) "analysis" "EUR/USD" = Ok a' /\
    call_attempted a a' /\
    ((exists call_id,
        (response <- voice_call x (the_call (environ x)) ;; extract_call_id response)
          = Ok call_id) ->
     last_alert_of a' "EUR/USD" = Some (now x) /\ last_alert_time a' = now x) /\
    ((exists e,
        (response <- voice_call x (the_call (environ x)) ;; extract_call_id response)
          = Raise e) ->
     market_state a' = market_state a /\ last_alert_time a' = last_alert_time a).
Proof.
  cbv zeta. apply dispatch_success_sets_last_alert.
  - fresh_pair_gate.
  - vm_compute. reflexivity.
Defined.

Lemma cooldown_299_suppressed_301_permitted_witness :
  let a := new_agent (fun _ => 1%Q) in
  let vc := fun _ : VoiceCall => Ok (mkResponse None) in
  maybe_trigger_alert a (mkExternals (0 + 299) 9 ∅ (Ok "analysis") vc)
      (PriceTitle "EUR/USD" 2) "analysis" "EUR/USD"
    = Ok (print a (LogCooldown "EUR/USD")) /\
  (is_market_hours 9 = true ->
   exists a',
     maybe_trigger_alert a (mkExternals (0 + 301) 9 ∅ (Ok "analysis") vc)
         (PriceTitle "EUR/USD" 2) "analysis" "EUR/USD" = Ok a' /\
     (exists rest, console a' =
        console a ++ LogAlert (PriceTitle "EUR/USD" 2) :: LogMessage "analysis" :: rest) /\
     (configured ∅ = true -> calls a' = calls a ++ [the_call ∅])).
Proof.
  cbv zeta.
  apply (cooldown_299_suppressed_301_permitted (new_agent (fun _ => 1%Q))
           (PriceTitle "EUR/USD" 2) "analysis" "EUR/USD"
           (mkPairState 1 0 (1 # 10) []) 9 ∅ (Ok "analysis")).
  vm_compute. reflexivity.
Defined.

(** ** The dispatch configuration *)

Lemma configured_spec (env : gmap string string) :
  configured env = true <->
  truthy (getenv env "AFRICASTALKING_USERNAME") = true /\
  truthy (getenv env "AFRICASTALKING_API_KEY") = true /\
  truthy (getenv env "YOUR_PHONE_NUMBER") = true.
Proof.
  unfold configured. cbn [forallb]. rewrite !andb_true_iff. intuition.
Qed.

(** C9 (as stated) fails: with the credentials and the destination number
    set and no origin number, the call is placed, from the placeholder
    origin ["+254711XXXYYY"]. *)
Lemma call_attempted_without_origin :
  let env : gmap string string :=
    list_to_map [("AFRICASTALKING_USERNAME", "sandbox");
                 ("AFRICASTALKING_API_KEY", "key");
                 ("YOUR_PHONE_NUMBER", "+254700000000")] in
  let x := mkExternals 1000 9 env (Ok "analysis")
             (fun _ => Ok (mkResponse (Some [Some "call-1"]))) in
  let a := new_agent (fun _ => 1%Q) in
  ~ dispatch_config_present env /\
  exists a',
    maybe_trigger_alert a x (PriceTitle "EUR/USD" 2) "analysis" "EUR/USD" = Ok a' /\
    call_attempted a a' /\
    calls a' = [mkVoiceCall "+254711XXXYYY" ["+254700000000"]].
Proof.
  cbv zeta. split.
  - intros [Horigin _]. vm_compute in Horigin. discriminate.
  - eexists. split; [vm_compute; reflexivity |]. split.
    + eexists. vm_compute. reflexivity.
    + vm_compute. reflexivity.
Qed.

(** C9 (as amended): once the gate has let the event through, the call is
    placed exactly when the user name, the API key and the destination
    number are set and non-empty; otherwise nothing is called, nothing but
    the console changes, and the line printed last is the not-configured
    line, which is neither of the two suppression lines. *)
Theorem call_attempted_iff_configured (a : ForexAgent) (x : Externals)
    (title : Title) (message pair : string) :
  gate_permits a x pair ->
  exists a',
    maybe_trigger_alert a x title message pair = Ok a' /\
    (call_attempted a a' <->
       truthy (getenv (environ x) "AFRICASTALKING_USERNAME") = true /\
       truthy (getenv (environ x) "AFRICASTALKING_API_KEY") = true /\
       truthy (getenv (environ x) "YOUR_PHONE_NUMBER") = true) /\
    (configured (environ x) = false ->
       a' = print (print (print a (LogAlert title)) (LogMessage message))
                  LogNotConfigured /\
       (forall p, LogNotConfigured <> LogCooldown p) /\
       LogNotConfigured <> LogOutsideHours).
Proof.
  intros Hgate. rewrite (maybe_trigger_alert_permitted _ _ _ _ _ Hgate).
  cbv zeta.
  destruct (configured (environ x)) eqn:Hc; cbn [negb].
  - destruct (response <- voice_call x (the_call (environ x)) ;; extract_call_id response)
      as [id | e]; eexists; (split; [reflexivity |]); (split; [| done]);
      (split; [intros _; by apply configured_spec |]);
      intros _; by exists (the_call (environ x)).
  - eexists. split; [reflexivity |]. split; [| done]. split.
    + intros [c Hcalls]. simpl in Hcalls.
      apply (f_equal length) in Hcalls. rewrite length_app in Hcalls.
      simpl in Hcalls. lia.
    + intros H%configured_spec. congruence.
Qed.

Lemma call_attempted_iff_configured_witness :
  let x := mkExternals 1000 9 ∅ (Ok "analysis") (fun _ => Ok (mkResponse None)) in
  let a := new_agent (fun _ => 1%Q) in
  exists a',
    maybe_trigger_alert a x (PriceTitle "EUR/USD" 2) "analysis" "EUR/USD" = Ok a' /\
    (call_attempted a a' <->
       truthy (getenv (environ x) "AFRICASTALKING_USERNAME") = true /\
       truthy (getenv (environ x) "AFRICASTALKING_API_KEY") = true /\
       truthy (getenv (environ x) "YOUR_PHONE_NUMBER") = true) /\
    (configured (environ x) = false ->
       a' = print (print (print a (LogAlert (PriceTitle "EUR/USD" 2)))
                         (LogMessage "analysis")) LogNotConfigured /\
       (forall p, LogNotConfigured <> LogCooldown p) /\
       LogNotConfigured <> LogOutsideHours).
Proof.
  cbv zeta. apply call_attempted_iff_configured.
  fresh_pair_gate.
Defined.

(** ** Failures inside the processor loop *)

(** An exception of the analysis call leaves the handler. *)
Lemma handle_event_analysis_error (a : ForexAgent) (x : Externals)
    (event : Event) (e : exn) :
  generate x = Raise e ->
  is_Some (market_state a !! event_pair event) ->
  handle_event a x event = Raise e.
Proof.
  intros Hgen [st Hst]. destruct event as [p c pr | h p]; simpl in *.
  - unfold handle_price_event, dict_get. rewrite Hst. cbn [bind]. by rewrite Hgen.
  - unfold handle_news_event. by rewrite Hgen.
Qed.

(** ... and then the loop of [event_processor]: no later event is handled. *)
Lemma analysis_error_ends_loop (a : ForexAgent) (x : Externals)
    (xs : list Externals) (event : Event) (q : PriorityEventQueue) (e : exn) :
  get (event_queue a) = Ok (Got event q) ->
  generate x = Raise e ->
  is_Some (market_state a !! event_pair event) ->
  exists a', event_processor_loop (x :: xs) a = LoopTerminated e a' /\
             event_queue a' = q /\ resource_lock a' = false.
Proof.
  intros Hget Hgen Hst.
  destruct xs; cbn [event_processor_loop]; rewrite Hget;
    rewrite (handle_event_analysis_error _ x event e Hgen) by done;
    eexists; repeat split.
Qed.

(** C3 fails on the code: a price event and then a news event are queued;
    the analysis call raises on the first.  The exception leaves the loop
    of [event_processor], with the lock released and the news event still
    in the queue; that event is never received. *)
Theorem analysis_error_terminates_processor :
  let price_event := PriceEvent "EUR/USD" 2 (11 # 10) in
  let news_event := NewsEvent "Fed signals pause in rate hikes" "EUR/USD" in
  let failing := mkExternals 1000 9 ∅ (Raise (CollaboratorError "generate failed"))
                   (fun _ => Ok (mkResponse None)) in
  let fine := mkExternals 1001 9 ∅ (Ok "analysis") (fun _ => Ok (mkResponse None)) in
  exists q a',
    put_all new_queue [mkEntry 1 10 price_event; mkEntry 3 11 news_event] = Ok q /\
    event_processor [failing; fine] (set_queue (new_agent (fun _ => 1%Q)) q)
      = LoopTerminated (CollaboratorError "generate failed") a' /\
    _queue (event_queue a') = [mkEntry 3 11 news_event] /\
    resource_lock a' = false /\
    console a' = [LogProcessorStarted; LogEventReceived "price" "EUR/USD"].
Proof.
  cbv zeta. eexists. eexists.
  split; [vm_compute; reflexivity |].
  split; [vm_compute; reflexivity |].
  repeat split.
Qed.

(** C5 fails on the code: in one pass of the price loop two pairs move by
    2% and the two [put] calls read the same clock value.  The entries agree
    on priority and time, the comparison falls through to the two event
    dicts, and the second [put] raises [TypeError]. *)
Theorem put_raises_on_equal_priority_and_time :
  let draws := mkTickDraws 0 (1 # 100) 1 (2 # 100) 50 50 in
  let sqrt := fun v : Q => v in
  (exists a1,
     tick_pair sqrt (new_agent (fun _ => 1%Q)) "EUR/USD" draws = Ok a1 /\
     _queue (event_queue a1) =
       [mkEntry 1 50 (PriceEvent "EUR/USD" (200 # 100) (102 # 100))] /\
     tick_pair sqrt a1 "USD/JPY" draws = Raise TypeError) /\
  put (mkQueue [mkEntry 1 50 (PriceEvent "EUR/USD" (200 # 100) (102 # 100))] true)
      1 50 (PriceEvent "USD/JPY" (200 # 100) (102 # 100)) = Raise TypeError.
Proof.
  cbv zeta. split; [| vm_compute; reflexivity].
  eexists. split; [vm_compute; reflexivity |].
  split; vm_compute; reflexivity.
Qed.

(** The comparison behind it, for any two entries. *)
Lemma put_same_key_different_event (priority t : Z) (e1 e2 : Event) (flag : bool) :
  event_eqb e2 e1 = false ->
  put (mkQueue [mkEntry priority t e1] flag) priority t e2 = Raise TypeError.
Proof.
  intros Hne. unfold put, heapq.heappush, heapq._siftdown. simpl.
  unfold entry_lt. simpl. rewrite !Z.eqb_refl. simpl. by rewrite Hne.
Qed.

(** ** Events and the keys of [market_state] *)

(** Every monitored pair has its entry from [__init__] on. *)
Lemma monitored_pairs_have_state (draw : string -> Q) (pair : string) :
  pair ∈ monitored_pairs -> is_Some (initial_market_state draw !! pair).
Proof.
  unfold monitored_pairs. intros Hin.
  repeat (apply elem_of_cons in Hin as [-> | Hin]; [vm_compute; eauto |]).
  by apply elem_of_nil in Hin.
Qed.

(** C10 fails on the code: the news producer can put the headline about
    ["USD/CHF"], a pair without a [market_state] entry; when the processor
    handles it, [maybe_trigger_alert] raises [KeyError], which nothing
    catches, and the loop of [event_processor] ends. *)
Theorem news_pair_without_market_state :
  let a := new_agent (fun _ => 1%Q) in
  let x := mkExternals 1000 9 ∅ (Ok "analysis") (fun _ => Ok (mkResponse None)) in
  news_item 5 = Ok (3, NewsEvent "Geopolitical tensions escalate" "USD/CHF") /\
  market_state a !! "USD/CHF" = None /\
  exists a1 a',
    news_tick a (1 # 100) 5 7 = Ok a1 /\
    event_processor [x] a1 = LoopTerminated (KeyError "USD/CHF") a' /\
    console a' = [LogProcessorStarted; LogEventReceived "news" "USD/CHF"].
Proof.
  cbv zeta. split; [vm_compute; reflexivity |].
  split; [vm_compute; reflexivity |].
  eexists. eexists. split; [vm_compute; reflexivity |].
  split; vm_compute; reflexivity.
Qed.

(** ** The price producer *)

Lemma threshold_emergency : dict_get alert_thresholds "emergency_price" = Ok (15 # 10).
Proof. vm_compute. reflexivity. Qed.

Lemma threshold_spike : dict_get alert_thresholds "price_spike" = Ok (8 # 10).
Proof. vm_compute. reflexivity. Qed.

Lemma priority_emergency : dict_get EVENT_PRIORITIES "emergency_price" = Ok 1.
Proof. vm_compute. reflexivity. Qed.

Lemma priority_spike : dict_get EVENT_PRIORITIES "price_spike" = Ok 2.
Proof. vm_compute. reflexivity. Qed.

Lemma movement_event_spec (pair : string) (change new_price : Q) :
  movement_event pair change new_price =
    Ok (if Qgt_dec (Qabs (change * 100)) (15 # 10)
        then Some (1, PriceEvent pair (change * 100) new_price)
        else if Qgt_dec (Qabs (change * 100)) (8 # 10)
             then Some (2, PriceEvent pair (change * 100) new_price)
             else None).
Proof.
  unfold movement_event, detect_movement.
  rewrite threshold_emergency. cbn [bind].
  destruct (Qgt_dec (Qabs (change * 100)) (15 # 10)).
  - cbn [bind]. by rewrite priority_emergency.
  - rewrite threshold_spike. cbn [bind].
    destruct (Qgt_dec (Qabs (change * 100)) (8 # 10)); cbn [bind]; [| done].
    by rewrite priority_spike.
Qed.

(** The new price is the last price moved by [change]. *)
Lemma update_pair_price (pow_half : Q -> Q) (state : PairState) (d : TickDraws) :
  forall new_price change state',
    update_pair pow_half state d = (new_price, change, state') ->
    new_price = (price state * (1 + change))%Q.
Proof.
  intros np ch st'. unfold update_pair.
  destruct (Qgt_dec (5 # 100) (d_roll d)); intros [= <- <- _]; reflexivity.
Qed.


Lemma resource_lock_mutual_exclusion_witness :
  let event := NewsEvent "ECB announces emergency rate hike" "EUR/USD" in
  let s := Sched.mkState (mkQueue [] true) true [Sched.Handling event; Sched.AwaitGet] in
  rtc Sched.step (Sched.init 2) s /\
  Sched.procs s !! 0%nat = Some (Sched.Handling event) /\ 0%nat = 0%nat.
Proof.
  cbv zeta.
  assert (Hr : rtc Sched.step (Sched.init 2)
                 (Sched.mkState (mkQueue [] true) true
                    [Sched.Handling (NewsEvent "ECB announces emergency rate hike" "EUR/USD");
                     Sched.AwaitGet])).
  { eapply rtc_l.
    { apply (Sched.step_put _ 1 5 (NewsEvent "ECB announces emergency rate hike" "EUR/USD")).
      vm_compute. reflexivity. }
    eapply rtc_l.
    { eapply (Sched.step_get _ 0); [reflexivity | vm_compute; reflexivity]. }
    eapply rtc_l.
    { eapply (Sched.step_acquire _ 0); reflexivity. }
    apply rtc_refl. }
  split; [exact Hr |]. split; [reflexivity |].
  apply (resource_lock_mutual_exclusion 2 _ 0 0
           (NewsEvent "ECB announces emergency rate hike" "EUR/USD")
           (NewsEvent "ECB announces emergency rate hike" "EUR/USD") Hr); reflexivity.
Defined.

(** ** Worked runs *)

(** Two priority classes pushed alternately with an advancing clock: class
    1 is drained first, each class in push order. *)
Example drain_two_classes :
  (q <- put_all new_queue
          [mkEntry 3 100 (NewsEvent "Fed signals pause in rate hikes" "EUR/USD");
           mkEntry 1 101 (PriceEvent "USD/JPY" 2 (11 # 10));
           mkEntry 3 102 (NewsEvent "Bank of Japan intervenes in FX market" "USD/JPY");
           mkEntry 1 103 (NewsEvent "Political crisis deepens in the UK" "GBP/USD")] ;;
   get_n 4 q)
  = Ok [PriceEvent "USD/JPY" 2 (11 # 10);
        NewsEvent "Political crisis deepens in the UK" "GBP/USD";
        NewsEvent "Fed signals pause in rate hikes" "EUR/USD";
        NewsEvent "Bank of Japan intervenes in FX market" "USD/JPY"].
Proof. vm_compute. reflexivity. Qed.

(** [get] on the empty queue parks the caller and clears the flag. *)
Example get_empty_waits :
  get (mkQueue [] true) = Ok (Waiting (mkQueue [] false)).
Proof. reflexivity. Qed.

(** With both collaborators answering, the processor handles the price event
    before the news event and ends parked on the empty queue. *)
Example processor_runs_both :
  let fine := mkExternals 1000 9 ∅ (Ok "analysis") (fun _ => Ok (mkResponse None)) in
  exists q a',
    put_all new_queue
      [mkEntry 3 10 (NewsEvent "Fed signals pause in rate hikes" "EUR/USD");
       mkEntry 1 11 (PriceEvent "USD/JPY" 2 (11 # 10))] = Ok q /\
    event_processor [fine; fine] (set_queue (new_agent (fun _ => 1%Q)) q)
      = WaitingForEvent a' /\
    console a' =
      [LogProcessorStarted;
       LogEventReceived "price" "USD/JPY";
       LogAlert (PriceTitle "USD/JPY" 2); LogMessage "analysis"; LogNotConfigured;
       LogEventReceived "news" "EUR/USD";
       LogAlert (NewsTitle "EUR/USD" "Fed signals pause in rate hike");
       LogMessage "analysis"; LogNotConfigured].
Proof.
  cbv zeta. eexists. eexists. split; [vm_compute; reflexivity |].
  split; vm_compute; reflexivity.
Qed.

(** * Further properties of the code *)

(** ** What [heapq] does on any list *)

Lemma entry_lt_raise (a b : Entry) (e : exn) :
  entry_lt a b = Raise e -> e = TypeError /\ collide a b.
Proof.
  unfold entry_lt, collide.
  destruct (Z.eqb_spec (e_priority a) (e_priority b)); simpl; [| done].
  destruct (Z.eqb_spec (e_time a) (e_time b)); simpl; [| done].
  destruct (event_eqb (e_event a) (e_event b)); [done |].
  by intros [= <-].
Qed.

(** [_siftdown] keeps the entries; it can only raise [TypeError], on
    comparing the new item with an entry above it that collides with it. *)
Lemma siftdown_loop_any (fuel : nat) :
  forall (h : list Entry) (x : Entry) (s pos : nat),
    (pos < length h)%nat ->
    match heapq.siftdown_loop fuel h x s pos with
    | Ok h' => h' ≡ₚ <[pos := x]> h
    | Raise e => e = TypeError /\
                 exists j y, (j < pos)%nat /\ h !! j = Some y /\ collide x y
    end.
Proof.
  induction fuel as [| fuel IH]; intros h x s pos Hlen; cbn [heapq.siftdown_loop];
    [done |].
  destruct (decide (s < pos)%nat) as [Hs | Hs]; [| done].
  change (Nat.shiftr (pos - 1) 1) with (parent pos).
  assert (Hpar : (parent pos < pos)%nat) by (apply parent_lt; lia).
  destruct (lookup_lt_is_Some_2 h (parent pos)) as [b Hb]; [lia |].
  rewrite Hb. destruct (entry_lt x b) as [[|] | e] eqn:Hlt; cbn [bind].
  - specialize (IH (<[pos := b]> h) x s (parent pos)).
    rewrite length_insert in IH. specialize (IH ltac:(lia)).
    destruct (heapq.siftdown_loop fuel (<[pos := b]> h) x s (parent pos)) as [h' | e].
    + rewrite IH. rewrite <- (list_insert_insert_eq h pos b x).
      apply insert_swap_perm.
      * by rewrite list_lookup_insert_ne by lia.
      * by apply list_lookup_insert_eq.
    + destruct IH as (-> & j & y & Hj & Hy & Hc). split; [done |].
      exists j, y. rewrite list_lookup_insert_ne in Hy by lia.
      split; [lia | done].
  - done.
  - apply entry_lt_raise in Hlt as [-> Hc]. split; [done |].
    by exists (parent pos), b.
Qed.

(** The first loop of [_siftup] keeps the entries; it can only raise
    [TypeError], on comparing two colliding entries. *)
Lemma siftup_loop_any (fuel : nat) :
  forall (h : list Entry) (pos : nat),
    (pos < length h)%nat ->
    match heapq.siftup_loop fuel h (length h) pos with
    | Ok (h', leaf) =>
        length h' = length h /\ (leaf < length h)%nat /\
        (forall y, y ∈ h' -> y ∈ h) /\
        forall x, <[leaf := x]> h' ≡ₚ <[pos := x]> h
    | Raise e => e = TypeError /\
                 exists y z, y ∈ h /\ z ∈ h /\ collide y z
    end.
Proof.
  induction fuel as [| fuel IH]; intros h pos Hlen; cbn [heapq.siftup_loop];
    [done |].
  destruct (decide (2 * pos + 1 < length h)%nat) as [Hchild | Hleaf]; [| done].
  destruct (lookup_lt_is_Some_2 h (2 * pos + 1)) as [l Hl]; [lia |].
  assert (Hstep : forall c v, (pos < c < length h)%nat -> h !! c = Some v ->
    match heapq.siftup_loop fuel (<[pos := v]> h) (length h) c with
    | Ok (h', leaf) =>
        length h' = length h /\ (leaf < length h)%nat /\
        (forall y, y ∈ h' -> y ∈ h) /\
        forall x, <[leaf := x]> h' ≡ₚ <[pos := x]> h
    | Raise e => e = TypeError /\ exists y z, y ∈ h /\ z ∈ h /\ collide y z
    end).
  { intros c v Hc Hv. specialize (IH (<[pos := v]> h) c).
    rewrite length_insert in IH. specialize (IH ltac:(lia)).
    assert (Hsub : forall y, y ∈ <[pos := v]> h -> y ∈ h).
    { intros y [i Hi]%list_elem_of_lookup.
      apply list_lookup_insert_Some in Hi as [(_ & <- & _) | [_ Hi]];
        apply list_elem_of_lookup; eauto. }
    destruct (heapq.siftup_loop fuel (<[pos := v]> h) (length h) c) as [[h' leaf] | e].
    - destruct IH as (Hl' & Hlf & Hin & Hp). repeat split; auto.
      intros x. rewrite Hp. rewrite <- (list_insert_insert_eq h pos v x).
      apply insert_swap_perm.
      + by rewrite list_lookup_insert_ne by lia.
      + by apply list_lookup_insert_eq.
    - destruct IH as (-> & y & z & Hy & Hz & Hcol). split; [done |].
      exists y, z. auto. }
  destruct (decide (2 * pos + 1 + 1 < length h)%nat) as [Hr | Hr].
  - destruct (lookup_lt_is_Some_2 h (2 * pos + 1 + 1)) as [r Hr']; [lia |].
    rewrite Hl, Hr'. destruct (entry_lt l r) as [[|] | e] eqn:Hlt; cbn [bind].
    + rewrite Hl. apply Hstep; [lia | done].
    + rewrite Hr'. apply Hstep; [lia | done].
    + apply entry_lt_raise in Hlt as [-> Hc]. split; [done |].
      exists l, r. repeat split; try apply Hc; apply list_elem_of_lookup; eauto.
  - cbn [bind]. rewrite Hl. apply Hstep; [lia | done].
Qed.

Lemma heappush_any (h : list Entry) (x : Entry) :
  match heapq.heappush h x with
  | Ok h' => h' ≡ₚ x :: h
  | Raise e => e = TypeError /\ exists y, y ∈ h /\ collide x y
  end.
Proof.
  unfold heapq.heappush, heapq._siftdown.
  replace (length (h ++ [x]) - 1)%nat with (length h)
    by (rewrite length_app; simpl; lia).
  rewrite (list_lookup_middle h [] x (length h) eq_refl).
  pose proof (siftdown_loop_any (length h) (h ++ [x]) x 0 (length h)) as H.
  rewrite length_app in H. simpl in H. specialize (H ltac:(lia)).
  destruct (heapq.siftdown_loop (length h) (h ++ [x]) x 0 (length h)) as [h' | e].
  - rewrite H, list_insert_id by (by apply list_lookup_middle).
    by rewrite Permutation_app_comm.
  - destruct H as (-> & j & y & Hj & Hy & Hc). split; [done |].
    exists y. split; [| done]. rewrite lookup_app_l in Hy by done.
    apply list_elem_of_lookup. eauto.
Qed.

Lemma heappop_any (h : list Entry) :
  match heapq.heappop h with
  | Ok (item, h') => h ≡ₚ item :: h'
  | Raise e => (e = IndexError /\ h = []) \/
               (e = TypeError /\ exists y z, y ∈ h /\ z ∈ h /\ collide y z)
  end.
Proof.
  unfold heapq.heappop.
  destruct (last h) as [lastelt |] eqn:Hlast;
    [| left; split; [done | by apply last_None]].
  apply last_Some in Hlast as [body ->]. rewrite removelast_last.
  destruct body as [| r t]; [done |].
  change (<[0%nat := lastelt]> (r :: t)) with (lastelt :: t).
  assert (Hsub : forall y, y ∈ lastelt :: t -> y ∈ (r :: t) ++ [lastelt]).
  { intros y Hy. apply elem_of_cons in Hy as [-> | Hy]; set_solver. }
  unfold heapq._siftup. cbn [lookup list_lookup]. rewrite Nat.sub_0_r.
  pose proof (siftup_loop_any (length (lastelt :: t)) (lastelt :: t) 0) as H1.
  specialize (H1 ltac:(simpl; lia)).
  destruct (heapq.siftup_loop (length (lastelt :: t)) (lastelt :: t)
              (length (lastelt :: t)) 0) as [[h1 leaf] | e]; cbn [bind].
  2: { right. destruct H1 as (-> & y & z & Hy & Hz & Hc). split; [done |].
       exists y, z. auto. }
  destruct H1 as (Hl1 & Hleaf & Hin & Hp1).
  unfold heapq._siftdown. rewrite list_lookup_insert_eq by lia.
  pose proof (siftdown_loop_any leaf (<[leaf := lastelt]> h1) lastelt 0 leaf) as H2.
  rewrite length_insert in H2. specialize (H2 ltac:(lia)).
  destruct (heapq.siftdown_loop leaf (<[leaf := lastelt]> h1) lastelt 0 leaf)
    as [h2 | e]; cbn [bind].
  - rewrite list_insert_insert_eq in H2. rewrite H2, Hp1. simpl.
    f_equiv. by rewrite Permutation_app_comm.
  - right. destruct H2 as (-> & j & y & Hj & Hy & Hc). split; [done |].
    exists lastelt, y. split; [set_solver |]. split; [| done].
    rewrite list_lookup_insert_ne in Hy by lia.
    apply Hsub, Hin. apply list_elem_of_lookup. eauto.
Qed.

(** ** [put] and [get] on any queue *)

(** X1: whatever the queue holds, [put] either succeeds, adding exactly the
    new entry and setting the wake-up flag, or raises [TypeError] because a
    queued entry has the same priority and time and a different event; it
    raises nothing else. *)
Theorem put_outcome (q : PriorityEventQueue) (priority t : Z) (event : Event) :
  match put q priority t event with
  | Ok q' => _queue q' ≡ₚ mkEntry priority t event :: _queue q /\
             _event_available q' = true
  | Raise e => e = TypeError /\
               exists y, y ∈ _queue q /\ collide (mkEntry priority t event) y
  end.
Proof.
  unfold put. pose proof (heappush_any (_queue q) (mkEntry priority t event)) as H.
  destruct (heapq.heappush (_queue q) (mkEntry priority t event)); cbn [bind]; done.
Qed.

(** X2: whatever the queue holds, [get] waits exactly when the queue is
    empty; otherwise it either returns the event of one entry and removes
    that entry only, leaving the flag as it was, or raises [TypeError]
    because two queued entries collide; it never raises [IndexError]. *)
Theorem get_outcome (q : PriorityEventQueue) :
  match get q with
  | Ok (Waiting q') => _queue q = [] /\ q' = mkQueue [] false
  | Ok (Got event q') =>
      exists item, e_event item = event /\ _queue q ≡ₚ item :: _queue q' /\
                   _event_available q' = _event_available q
  | Raise e => e = TypeError /\
               exists y z, y ∈ _queue q /\ z ∈ _queue q /\ collide y z
  end.
Proof.
  unfold get. destruct (_queue q) as [| e0 t] eqn:Hq; [done |].
  pose proof (heappop_any (e0 :: t)) as H.
  destruct (heapq.heappop (e0 :: t)) as [[item h'] | e]; cbn [bind].
  - by exists item.
  - destruct H as [[_ [=]] | H]; done.
Qed.

(** X3: on a heap whose keys [(priority, time)] stay pairwise distinct with
    the new entry, [put] succeeds and leaves a heap. *)
Theorem put_keeps_heap (q : PriorityEventQueue) (priority t : Z) (event : Event) :
  is_heap (_queue q) ->
  NoDup (keyof <$> (_queue q ++ [mkEntry priority t event])) ->
  exists q', put q priority t event = Ok q' /\ is_heap (_queue q') /\
             NoDup (keyof <$> _queue q').
Proof.
  intros Hheap Hnd. unfold put.
  destruct (heappush_ok _ _ Hheap Hnd) as (h' & -> & Hh' & Hp). cbn [bind].
  eexists. split; [done |]. split; [done |]. cbn [_queue].
  rewrite Hp. by rewrite Permutation_app_comm in Hnd.
Qed.

Lemma put_keeps_heap_witness :
  let q := mkQueue [mkEntry 1 10 (NewsEvent "a" "EUR/USD");
                    mkEntry 3 11 (NewsEvent "b" "EUR/USD")] true in
  exists q', put q 1 12 (NewsEvent "c" "USD/JPY") = Ok q' /\ is_heap (_queue q') /\
             NoDup (keyof <$> _queue q').
Proof.
  cbv zeta. apply put_keeps_heap.
  - intros [| [| i]] Hi a b Ha Hb; [lia | | by destruct i].
    vm_compute in Ha, Hb. simplify_eq. unfold key_le. simpl. lia.
  - refine (bool_decide_unpack _ _). vm_compute. exact I.
Defined.

Lemma get_on_heap (q : PriorityEventQueue) :
  is_heap (_queue q) -> NoDup (keyof <$> _queue q) -> _queue q <> [] ->
  exists m q',
    get q = Ok (Got (e_event m) q') /\ m ∈ _queue q /\
    (forall y, y ∈ _queue q -> key_le m y) /\
    is_heap (_queue q') /\ _queue q ≡ₚ m :: _queue q'.
Proof.
  intros Hheap Hnd Hne. unfold get.
  destruct (heappop_ok _ Hheap Hnd Hne) as (m & h' & Hpop & Hh' & Hp & Hmin).
  destruct (_queue q) as [| e0 t] eqn:Hq; [done |].
  rewrite Hpop. cbn [bind]. exists m. eexists. split; [done |].
  cbn [_queue]. split; [rewrite Hp; by left |].
  split; [| done]. intros y Hy. rewrite Hp in Hy.
  apply elem_of_cons in Hy as [-> | Hy]; [apply key_le_refl |].
  rewrite Forall_forall in Hmin. auto.
Qed.

(** X4: on a non-empty heap with pairwise distinct keys, [get] returns the
    event of the entry with the least [(priority, time)]: no queued entry
    has a lower priority number, and none of the same priority an earlier
    time; what is left is again a heap. *)
Theorem get_returns_least (q : PriorityEventQueue) :
  is_heap (_queue q) -> NoDup (keyof <$> _queue q) -> _queue q <> [] ->
  exists m q',
    get q = Ok (Got (e_event m) q') /\ m ∈ _queue q /\
    (forall y, y ∈ _queue q -> key_le m y) /\
    is_heap (_queue q') /\ _queue q ≡ₚ m :: _queue q'.
Proof. apply get_on_heap. Qed.

Lemma get_returns_least_witness :
  let q := mkQueue [mkEntry 1 10 (NewsEvent "a" "EUR/USD");
                    mkEntry 3 11 (NewsEvent "b" "EUR/USD")] true in
  exists m q',
    get q = Ok (Got (e_event m) q') /\ m ∈ _queue q /\
    (forall y, y ∈ _queue q -> key_le m y) /\
    is_heap (_queue q') /\ _queue q ≡ₚ m :: _queue q'.
Proof.
  cbv zeta. apply get_returns_least.
  - intros [| [| i]] Hi a b Ha Hb; [lia | | by destruct i].
    vm_compute in Ha, Hb. simplify_eq. unfold key_le. simpl. lia.
  - refine (bool_decide_unpack _ _). vm_compute. exact I.
  - done.
Defined.

(** ** The alert gate on any input *)

(** X5: [is_market_hours] answers yes exactly for the hours 0 to 21; the
    hours 22 and 23 (and any value outside 0..23) are outside the active
    hours. *)
Theorem is_market_hours_exact (hour : Z) :
  is_market_hours hour = true <-> 0 <= hour < 22.
Proof.
  unfold is_market_hours.
  destruct (Z.leb_spec 0 hour), (Z.ltb_spec hour 8), (Z.leb_spec 7 hour),
    (Z.ltb_spec hour 17), (Z.leb_spec 12 hour), (Z.ltb_spec hour 22);
    simpl; split; intros; try reflexivity; try discriminate; lia.
Qed.

(** The five ways out of [maybe_trigger_alert] for a pair with an entry. *)
Lemma maybe_trigger_alert_cases (a : ForexAgent) (x : Externals)
    (title : Title) (message pair : string) (state : PairState) :
  market_state a !! pair = Some state ->
  let a1 := print (print a (LogAlert title)) (LogMessage message) in
  let a2 := record_call a1 (the_call (environ x)) in
  (now x - last_alert state < 300 /\
   maybe_trigger_alert a x title message pair = Ok (print a (LogCooldown pair))) \/
  (300 <= now x - last_alert state /\ is_market_hours (utc_hour x) = false /\
   maybe_trigger_alert a x title message pair = Ok (print a LogOutsideHours)) \/
  (gate_permits a x pair /\ configured (environ x) = false /\
   maybe_trigger_alert a x title message pair = Ok (print a1 LogNotConfigured)) \/
  (gate_permits a x pair /\ configured (environ x) = true /\
   exists call_id,
     (response <- voice_call x (the_call (environ x)) ;; extract_call_id response)
       = Ok call_id /\
     maybe_trigger_alert a x title message pair =
       Ok (set_last_alert (print a2 (LogCallInitiated call_id)) pair (now x))) \/
  (gate_permits a x pair /\ configured (environ x) = true /\
   exists e,
     (response <- voice_call x (the_call (environ x)) ;; extract_call_id response)
       = Raise e /\
     maybe_trigger_alert a x title message pair = Ok (print a2 (LogCallError e))).
Proof.
  intros Hst a1 a2.
  destruct (Z.ltb_spec (now x - last_alert state) 300) as [Hcool | Hcool].
  { left. split; [done |]. unfold maybe_trigger_alert, dict_get.
    rewrite Hst. cbn [bind].
    destruct (Z.ltb_spec (now x - last_alert state) 300); [done | lia]. }
  destruct (is_market_hours (utc_hour x)) eqn:Hhours.
  2: { right; left. split; [done |]. split; [done |].
       unfold maybe_trigger_alert, dict_get. rewrite Hst. cbn [bind].
       destruct (Z.ltb_spec (now x - last_alert state) 300); [lia |].
       by rewrite Hhours. }
  assert (Hgate : gate_permits a x pair) by (by exists state).
  rewrite (maybe_trigger_alert_permitted _ _ title message _ Hgate). cbv zeta.
  destruct (configured (environ x)) eqn:Hc; cbn [negb].
  2: { right; right; left. done. }
  destruct (response <- voice_call x (the_call (environ x)) ;; extract_call_id response)
    as [id | e] eqn:Hcall.
  - right; right; right; left. split; [done |]. split; [done |]. by exists id.
  - right; right; right; right. split; [done |]. split; [done |]. by exists e.
Qed.

(** X6: for a pair that has its entry, [maybe_trigger_alert] never raises:
    a failing [voice.call] is caught.  It leaves the queue, the lock and
    every other pair's entry alone, only appends to the console, places at
    most one call, and of the pair's entry can only move [last_alert], and
    only forward. *)
Theorem maybe_trigger_alert_frame (a : ForexAgent) (x : Externals)
    (title : Title) (message pair : string) (state : PairState) :
  market_state a !! pair = Some state ->
  exists a' state',
    maybe_trigger_alert a x title message pair = Ok a' /\
    event_queue a' = event_queue a /\ resource_lock a' = resource_lock a /\
    (exists lines, console a' = console a ++ lines) /\
    (calls a' = calls a \/ calls a' = calls a ++ [the_call (environ x)]) /\
    (forall p, p <> pair -> market_state a' !! p = market_state a !! p) /\
    market_state a' !! pair = Some state' /\
    price state' = price state /\ volatility state' = volatility state /\
    history state' = history state /\ last_alert state <= last_alert state'.
Proof.
  intros Hst.
  destruct (maybe_trigger_alert_cases a x title message pair state Hst)
    as [(Hc & ->) | [(Hc & Hh & ->) | [(Hg & Hc & ->)
       | [(Hg & Hc & id & Hcall & ->) | (Hg & Hc & e & Hcall & ->)]]]].
  - exists (print a (LogCooldown pair)), state. simpl.
    repeat split; eauto; lia.
  - exists (print a LogOutsideHours), state. simpl. repeat split; eauto; lia.
  - eexists _, state. split; [reflexivity |]. simpl.
    repeat split; eauto; try lia. rewrite <- !app_assoc. eauto.
  - eexists _, (mkPairState (price state) (now x) (volatility state) (history state)).
    split; [reflexivity |]. simpl.
    destruct Hg as (st & Hst' & Hcool & _). simplify_eq.
    repeat split; eauto; try lia.
    + rewrite <- !app_assoc. eauto.
    + intros p Hp. by rewrite lookup_alter_ne.
    + by rewrite lookup_alter_eq, Hst.
  - eexists _, state. split; [reflexivity |]. simpl.
    repeat split; eauto; try lia. rewrite <- !app_assoc. eauto.
Qed.

Lemma maybe_trigger_alert_frame_witness :
  let a := new_agent (fun _ => 1%Q) in
  let x := mkExternals 1000 9 ∅ (Ok "analysis")
             (fun _ => Raise (CollaboratorError "service unavailable")) in
  let state := mkPairState 1 0 (1 # 10) [] in
  exists a' state',
    maybe_trigger_alert a x (PriceTitle "EUR/USD" 2) "analysis" "EUR/USD" = Ok a' /\
    event_queue a' = event_queue a /\ resource_lock a' = resource_lock a /\
    (exists lines, console a' = console a ++ lines) /\
    (calls a' = calls a \/ calls a' = calls a ++ [the_call (environ x)]) /\
    (forall p, p <> "EUR/USD" -> market_state a' !! p = market_state a !! p) /\
    market_state a' !! "EUR/USD" = Some state' /\
    price state' = price state /\ volatility state' = volatility state /\
    history state' = history state /\ last_alert state <= last_alert state'.
Proof.
  cbv zeta. apply maybe_trigger_alert_frame. vm_compute. reflexivity.
Defined.

(** X7: [maybe_trigger_alert] places a call only when the pair's cooldown
    has elapsed, the hour is inside the active hours and the telephony
    settings are there; and it moves the pair's [last_alert] only when it
    has placed a call. *)
Theorem call_only_when_permitted (a a' : ForexAgent) (x : Externals)
    (title : Title) (message pair : string) :
  maybe_trigger_alert a x title message pair = Ok a' ->
  (call_attempted a a' -> gate_permits a x pair /\ configured (environ x) = true) /\
  (market_state a' <> market_state a -> call_attempted a a').
Proof.
  intros Hrun.
  destruct (market_state a !! pair) as [state |] eqn:Hst.
  2: { unfold maybe_trigger_alert, dict_get in Hrun. by rewrite Hst in Hrun. }
  assert (Hno : forall b, calls b = calls a -> ~ call_attempted a b).
  { intros b Hb [c Hc]. rewrite Hb in Hc. apply (f_equal length) in Hc.
    rewrite length_app in Hc. simpl in Hc. lia. }
  destruct (maybe_trigger_alert_cases a x title message pair state Hst)
    as [(Hc & Heq) | [(Hc & Hh & Heq) | [(Hg & Hc & Heq)
       | [(Hg & Hc & id & Hcall & Heq) | (Hg & Hc & e & Hcall & Heq)]]]];
    rewrite Heq in Hrun; injection Hrun as <-; simpl.
  - split; [intros H; by apply Hno in H | done].
  - split; [intros H; by apply Hno in H | done].
  - split; [intros H; by apply Hno in H | done].
  - split; [done |]. intros _. by exists (the_call (environ x)).
  - split; [done |]. intros _. by exists (the_call (environ x)).
Qed.

Lemma call_only_when_permitted_witness :
  let env : gmap string string :=
    list_to_map [("AFRICASTALKING_USERNAME", "sandbox");
                 ("AFRICASTALKING_API_KEY", "key");
                 ("YOUR_PHONE_NUMBER", "+254700000000")] in
  let a := new_agent (fun _ => 1%Q) in
  let x := mkExternals 100 9 env (Ok "analysis")
             (fun _ => Ok (mkResponse (Some [Some "call-1"]))) in
  let a' := print a (LogCooldown "EUR/USD") in
  (call_attempted a a' -> gate_permits a x "EUR/USD" /\ configured (environ x) = true) /\
  (market_state a' <> market_state a -> call_attempted a a').
Proof.
  cbv zeta.
  apply (call_only_when_permitted _ _ _ (PriceTitle "EUR/USD" 2) "analysis").
  vm_compute. reflexivity.
Defined.

(** X8: after a dispatch that went through for a pair at time [now x1], any
    further decision for that pair taken less than 300 seconds after it is
    a cooldown suppression: one line printed, no call, nothing else
    changed. *)
Theorem dispatch_then_cooldown (a : ForexAgent) (x1 x2 : Externals)
    (title1 title2 : Title) (message1 message2 pair call_id : string) :
  gate_permits a x1 pair ->
  configured (environ x1) = true ->
  (response <- voice_call x1 (the_call (environ x1)) ;; extract_call_id response)
    = Ok call_id ->
  now x2 - now x1 < 300 ->
  exists a1,
    maybe_trigger_alert a x1 title1 message1 pair = Ok a1 /\
    maybe_trigger_alert a1 x2 title2 message2 pair = Ok (print a1 (LogCooldown pair)).
Proof.
  intros Hgate Hconf Hcall Hsoon.
  rewrite (maybe_trigger_alert_permitted _ _ _ _ _ Hgate). cbv zeta.
  rewrite Hconf, Hcall. cbn [negb]. eexists. split; [reflexivity |].
  destruct Hgate as (st & Hst & _).
  unfold maybe_trigger_alert at 1, dict_get. simpl.
  rewrite lookup_alter_eq, Hst. simpl.
  destruct (Z.ltb_spec (now x2 - now x1) 300); [done | lia].
Qed.

Lemma dispatch_then_cooldown_witness :
  let env : gmap string string :=
    list_to_map [("AFRICASTALKING_USERNAME", "sandbox");
                 ("AFRICASTALKING_API_KEY", "key");
                 ("YOUR_PHONE_NUMBER", "+254700000000")] in
  let vc := fun _ : VoiceCall => Ok (mkResponse (Some [Some "call-1"])) in
  let a := new_agent (fun _ => 1%Q) in
  let x1 := mkExternals 1000 9 env (Ok "analysis") vc in
  let x2 := mkExternals 1010 9 env (Ok "analysis") vc in
  exists a1,
    maybe_trigger_alert a x1 (PriceTitle "EUR/USD" 2) "analysis" "EUR/USD" = Ok a1 /\
    maybe_trigger_alert a1 x2 (PriceTitle "EUR/USD" 3) "analysis" "EUR/USD"
      = Ok (print a1 (LogCooldown "EUR/USD")).
Proof.
  cbv zeta.
  apply (dispatch_then_cooldown _ _ _ _ _ _ _ _ "call-1").
  - fresh_pair_gate.
  - vm_compute. reflexivity.
  - vm_compute. reflexivity.
  - simpl. lia.
Defined.

(** ** The processor loop on any queue *)

(** An event whose pair has its entry and whose analysis answers is handled
    without an exception; the handler leaves the queue and the lock alone,
    prints no "EVENT RECEIVED" line and keeps the keys of [market_state]. *)
Lemma handle_event_ok (a : ForexAgent) (x : Externals) (event : Event)
    (analysis : string) :
  is_Some (market_state a !! event_pair event) ->
  generate x = Ok analysis ->
  exists a',
    handle_event a x event = Ok a' /\
    event_queue a' = event_queue a /\ resource_lock a' = resource_lock a /\
    received_events (console a') = received_events (console a) /\
    (forall p, is_Some (market_state a' !! p) <-> is_Some (market_state a !! p)).
Proof.
  intros [st Hst] Hgen.
  assert (Hmta : forall title,
    exists a', maybe_trigger_alert a x title analysis (event_pair event) = Ok a' /\
      event_queue a' = event_queue a /\ resource_lock a' = resource_lock a /\
      received_events (console a') = received_events (console a) /\
      (forall p, is_Some (market_state a' !! p) <-> is_Some (market_state a !! p))).
  { intros title.
    destruct (maybe_trigger_alert_cases a x title analysis _ st Hst)
      as [(Hc & ->) | [(Hc & Hh & ->) | [(Hg & Hc & ->)
         | [(Hg & Hc & id & Hcall & ->) | (Hg & Hc & e & Hcall & ->)]]]];
      eexists; (split; [reflexivity |]); simpl;
      unfold received_events; rewrite ?omap_app; simpl; rewrite ?app_nil_r;
      repeat split; try done.
    - intros H. destruct (decide (p = event_pair event)) as [-> | Hne].
      + by rewrite Hst.
      + by rewrite lookup_alter_ne in H.
    - intros H. destruct (decide (p = event_pair event)) as [-> | Hne].
      + rewrite lookup_alter_eq, Hst. by eexists.
      + by rewrite lookup_alter_ne. }
  destruct event as [p c pr | h p]; simpl in *.
  - unfold handle_price_event, dict_get. rewrite Hst, Hgen. cbn [bind]. apply Hmta.
  - unfold handle_news_event. rewrite Hgen. cbn [bind]. apply Hmta.
Qed.

(** X9: an event whose pair has no [market_state] entry always ends the
    loop of [event_processor], with the lock released and the rest of the
    queue left as it is: the handler raises [KeyError] for the pair, unless
    the event is a news event and its analysis call raised first. *)
Theorem unknown_pair_ends_loop (a : ForexAgent) (x : Externals)
    (xs : list Externals) (event : Event) (q : PriorityEventQueue) :
  get (event_queue a) = Ok (Got event q) ->
  market_state a !! event_pair event = None ->
  exists e a',
    event_processor_loop (x :: xs) a = LoopTerminated e a' /\
    (e = KeyError (event_pair event) \/
     exists headline p, event = NewsEvent headline p /\ generate x = Raise e) /\
    event_queue a' = q /\ resource_lock a' = false.
Proof.
  intros Hget Hst.
  assert (Hh : forall b, market_state b = market_state a ->
    exists e, handle_event b x event = Raise e /\
      (e = KeyError (event_pair event) \/
       exists headline p, event = NewsEvent headline p /\ generate x = Raise e)).
  { intros b Hb. destruct event as [p c pr | h p]; simpl in *.
    - unfold handle_price_event, dict_get. rewrite Hb, Hst. eauto.
    - unfold handle_news_event. destruct (generate x) as [s | e] eqn:Hgen; cbn [bind].
      + unfold maybe_trigger_alert, dict_get. rewrite Hb, Hst. eauto.
      + eauto 10. }
  cbn [event_processor_loop]. rewrite Hget.
  match goal with |- context [handle_event ?b x event] =>
    destruct (Hh b eq_refl) as (e & -> & He) end.
  exists e. eexists. repeat split; done.
Qed.

Lemma unknown_pair_ends_loop_witness :
  let event := PriceEvent "USD/CHF" 2 (11 # 10) in
  let a := set_queue (new_agent (fun _ => 1%Q)) (mkQueue [mkEntry 1 10 event] true) in
  let x := mkExternals 1000 9 ∅ (Ok "analysis") (fun _ => Ok (mkResponse None)) in
  exists e a',
    event_processor_loop [x] a = LoopTerminated e a' /\
    (e = KeyError (event_pair event) \/
     exists headline p, event = NewsEvent headline p /\ generate x = Raise e) /\
    event_queue a' = mkQueue [] true /\ resource_lock a' = false.
Proof.
  cbv zeta. apply (unknown_pair_ends_loop _ _ []).
  - vm_compute. reflexivity.
  - vm_compute. reflexivity.
Defined.

(** X10: an exception of the analysis call on any event whose pair has its
    entry ends the loop of [event_processor] at that event.  The state it
    leaves is the one before the event but for the dequeued entry and the
    "EVENT RECEIVED" line: no alert, no call, no change of [market_state],
    the lock released, and the events still queued are never handled. *)
Theorem analysis_error_stops_processor (a : ForexAgent) (x : Externals)
    (xs : list Externals) (event : Event) (q : PriorityEventQueue) (e : exn) :
  get (event_queue a) = Ok (Got event q) ->
  generate x = Raise e ->
  is_Some (market_state a !! event_pair event) ->
  event_processor_loop (x :: xs) a =
    LoopTerminated e
      (mkAgent (market_state a) (last_alert_time a) q false
         (console a ++ [LogEventReceived (event_type event) (event_pair event)])
         (calls a)).
Proof.
  intros Hget Hgen Hst. cbn [event_processor_loop]. rewrite Hget.
  rewrite (handle_event_analysis_error _ x event e Hgen) by done.
  reflexivity.
Qed.

Lemma analysis_error_stops_processor_witness :
  let event := NewsEvent "Fed signals pause in rate hikes" "EUR/USD" in
  let later := mkEntry 3 11 (NewsEvent "US inflation exceeds forecasts" "USD/JPY") in
  let a := set_queue (new_agent (fun _ => 1%Q))
             (mkQueue [mkEntry 1 10 event; later] true) in
  let x := mkExternals 1000 9 ∅ (Raise (CollaboratorError "generate failed"))
             (fun _ => Ok (mkResponse None)) in
  event_processor_loop [x; x] a =
    LoopTerminated (CollaboratorError "generate failed")
      (mkAgent (market_state a) (last_alert_time a) (mkQueue [later] true) false
         (console a ++ [LogEventReceived (event_type event) (event_pair event)])
         (calls a)).
Proof.
  cbv zeta.
  apply (analysis_error_stops_processor _ _ _
           (NewsEvent "Fed signals pause in rate hikes" "EUR/USD")).
  - vm_compute. reflexivity.
  - reflexivity.
  - vm_compute. eauto.
Defined.

(** X11: when the queue is a heap with pairwise distinct keys, every queued
    event's pair has its entry, and the analysis answers for every event,
    the loop of [event_processor] handles all queued events without an
    exception, receives them in the order [get] dequeues them, and ends
    parked on the empty queue. *)
Theorem processor_drains_queue (n : nat) :
  forall (xs : list Externals) (a : ForexAgent),
    length (_queue (event_queue a)) = n ->
    is_heap (_queue (event_queue a)) ->
    NoDup (keyof <$> _queue (event_queue a)) ->
    (forall y, y ∈ _queue (event_queue a) ->
               is_Some (market_state a !! event_pair (e_event y))) ->
    Forall (fun x => exists analysis, generate x = Ok analysis) xs ->
    (n <= length xs)%nat ->
    exists a' events,
      event_processor_loop xs a = WaitingForEvent a' /\
      get_n n (event_queue a) = Ok events /\
      received_events (console a') =
        received_events (console a) ++ (event_tag <$> events) /\
      _queue (event_queue a') = [].
Proof.
  induction n as [| n IH]; intros xs a Hlen Hheap Hnd Hknown Hgen Hxs.
  - apply nil_length_inv in Hlen.
    exists (set_queue a (mkQueue [] false)), [].
    destruct xs; cbn [event_processor_loop get_n]; unfold get; rewrite Hlen;
      simpl; by rewrite app_nil_r.
  - destruct (get_on_heap (event_queue a) Hheap Hnd)
      as (m & q' & Hget & Hm & _ & Hh' & Hp); [by destruct (_queue (event_queue a)) |].
    destruct xs as [| x xs']; [simpl in Hxs; lia |].
    apply Forall_cons in Hgen as [[analysis Hx] Hgen].
    cbn [event_processor_loop get_n]. rewrite Hget. cbn [bind].
    set (a2 := set_lock (print (set_queue a q') _) true).
    destruct (handle_event_ok a2 x (e_event m) analysis) as
      (a3 & -> & Hq3 & _ & Hr3 & Hdom3); [by apply Hknown | done |].
    destruct (IH xs' (set_lock a3 false)) as (a' & events & Hrun & Hgetn & Hrec & Hempty).
    + cbn [event_queue set_lock]. rewrite Hq3. simpl.
      apply Permutation_length in Hp. simpl in Hp. lia.
    + cbn [event_queue set_lock]. by rewrite Hq3.
    + cbn [event_queue set_lock]. rewrite Hq3. simpl.
      rewrite Hp, fmap_cons in Hnd. by apply NoDup_cons in Hnd as [_ ?].
    + cbn [event_queue set_lock market_state]. rewrite Hq3. simpl.
      intros y Hy. apply Hdom3. simpl. apply Hknown. rewrite Hp. by right.
    + done.
    + simpl in Hxs. lia.
    + exists a', (e_event m :: events). rewrite Hrun.
      cbn [event_queue set_lock] in Hgetn. rewrite Hq3 in Hgetn. simpl in Hgetn.
      rewrite Hgetn. cbn [bind]. split; [done |]. split; [done |].
      split; [| done]. rewrite Hrec. simpl. rewrite Hr3. simpl.
      unfold received_events. rewrite omap_app. simpl.
      by rewrite <- app_assoc.
Qed.

Lemma processor_drains_queue_witness :
  let first := NewsEvent "Fed signals pause in rate hikes" "EUR/USD" in
  let second := PriceEvent "USD/JPY" 2 (11 # 10) in
  let a := set_queue (new_agent (fun _ => 1%Q))
             (mkQueue [mkEntry 1 11 second; mkEntry 3 10 first] true) in
  let x := mkExternals 1000 9 ∅ (Ok "analysis") (fun _ => Ok (mkResponse None)) in
  exists a' events,
    event_processor_loop [x; x] a = WaitingForEvent a' /\
    get_n 2 (event_queue a) = Ok events /\
    received_events (console a') =
      received_events (console a) ++ (event_tag <$> events) /\
    _queue (event_queue a') = [].
Proof.
  cbv zeta. apply processor_drains_queue.
  - reflexivity.
  - intros [| [| i]] Hi p c Hp Hc; [lia | | by destruct i].
    vm_compute in Hp, Hc. simplify_eq. unfold key_le. simpl. lia.
  - refine (bool_decide_unpack _ _). vm_compute. exact I.
  - intros y Hy. cbn [event_queue set_queue _queue] in Hy.
    apply elem_of_cons in Hy as [-> | Hy];
      [| apply elem_of_cons in Hy as [-> | Hy]; [| by apply elem_of_nil in Hy]];
      vm_compute; eauto.
  - repeat constructor; by exists "analysis".
  - simpl. lia.
Defined.

(** ** The producers on any state *)

Lemma length_last_n {A} (n : nat) (l : list A) :
  length (last_n n l) = Nat.min n (length l).
Proof. unfold last_n. rewrite length_drop. lia. Qed.

Lemma last_drop_lt {A} (n : nat) (l : list A) :
  (n < length l)%nat -> last (drop n l) = last l.
Proof.
  intros Hn. rewrite !last_lookup, length_drop, lookup_drop.
  f_equal. lia.
Qed.

Lemma trim_history_facts (h : list (Q * Z)) (sample : Q * Z) :
  (length h <= 100)%nat ->
  let h1 := h ++ [sample] in
  let h2 := if decide (100 < length h1)%nat then last_n 50 h1 else h1 in
  (1 <= length h2 <= 100)%nat /\
  length h2 = (if decide (length h < 100)%nat then S (length h) else 50%nat) /\
  last h2 = Some sample.
Proof.
  intros Hlen h1 h2. subst h1 h2. rewrite length_app. cbn [length].
  destruct (decide (100 < length h + 1)%nat) as [Hbig | Hsmall].
  - rewrite length_last_n, length_app. cbn [length].
    destruct (decide (length h < 100)%nat); [lia |].
    split; [lia |]. split; [lia |].
    unfold last_n. rewrite last_drop_lt by (rewrite length_app; cbn [length]; lia).
    apply last_snoc.
  - rewrite length_app. cbn [length].
    destruct (decide (length h < 100)%nat); [| lia].
    split; [lia |]. split; [lia |]. apply last_snoc.
Qed.

Lemma trim_history_exact (h : list (Q * Z)) (sample : Q * Z) :
  let h1 := h ++ [sample] in
  let h2 := if decide (100 < length h1)%nat then last_n 50 h1 else h1 in
  ((length h < 100)%nat -> h2 = h ++ [sample]) /\
  ((100 <= length h)%nat ->
   length h2 = 50%nat /\ exists dropped, h ++ [sample] = dropped ++ h2).
Proof.
  intros h1 h2. subst h1 h2. rewrite length_app. cbn [length].
  destruct (decide (100 < length h + 1)%nat) as [Hbig | Hsmall]; split; intros Hlen;
    try lia; try done.
  split.
  - rewrite length_last_n, length_app. cbn [length]. lia.
  - exists (take (length (h ++ [sample]) - 50) (h ++ [sample])).
    unfold last_n. by rewrite take_drop.
Qed.

Lemma trim_history_spec (h : list (Q * Z)) (sample : Q * Z) :
  (length h <= 100)%nat ->
  let h1 := h ++ [sample] in
  let h2 := if decide (100 < length h1)%nat then last_n 50 h1 else h1 in
  ((length h < 100)%nat -> h2 = h ++ [sample]) /\
  (length h = 100%nat ->
   length h2 = 50%nat /\
   exists dropped, length dropped = 51%nat /\ h ++ [sample] = dropped ++ h2) /\
  (1 <= length h2 <= 100)%nat /\
  last h2 = Some sample.
Proof.
  intros Hlen.
  destruct (trim_history_facts h sample Hlen) as (H1 & H2 & H3).
  destruct (trim_history_exact h sample) as (H4 & H5).
  cbv zeta in *.
  set (h2 := if decide (100 < length (h ++ [sample]))%nat
             then last_n 50 (h ++ [sample]) else h ++ [sample]) in *.
  split; [exact H4 |]. split; [| by split].
  intros H100. destruct H5 as (H50 & dropped & Hd); [lia |].
  split; [exact H50 |]. exists dropped. split; [| exact Hd].
  apply (f_equal length) in Hd. rewrite !length_app, H50 in Hd.
  cbn [length] in Hd. lia.
Qed.

(** X12: a price tick appends the new sample to the pair's history and cuts
    the history to its last 50 samples once it exceeds 100.  For a history
    of at most 100 samples: below 100 the new history is the old one with
    the new sample appended; at 100 it is the last 50 samples of the old
    history with the new sample appended (the 51 oldest are dropped).  It
    stays within 1..100 samples, its newest sample is the new price with
    the tick's time, and the pair's [last_alert] is not touched. *)
Theorem update_pair_history (pow_half : Q -> Q) (state : PairState) (d : TickDraws) :
  (length (history state) <= 100)%nat ->
  let '(new_price, change, state') := update_pair pow_half state d in
  let sample := (new_price, d_history_time d) in
  ((length (history state) < 100)%nat ->
   history state' = history state ++ [sample]) /\
  (length (history state) = 100%nat ->
   length (history state') = 50%nat /\
   exists dropped, length dropped = 51%nat /\
                   history state ++ [sample] = dropped ++ history state') /\
  (1 <= length (history state') <= 100)%nat /\
  last (history state') = Some sample /\
  price state' = new_price /\ last_alert state' = last_alert state.
Proof.
  intros Hlen. unfold update_pair.
  destruct (Qgt_dec (5 # 100) (d_roll d)); cbn [history price last_alert];
    match goal with
    | |- context [history state ++ [?s]] =>
        destruct (trim_history_spec (history state) s Hlen) as (H1 & H2 & H3 & H4)
    end; cbv zeta in *;
    (split; [exact H1 |]); (split; [exact H2 |]); (split; [exact H3 |]);
    (split; [exact H4 |]); by split.
Qed.

Lemma update_pair_history_witness :
  let state := mkPairState 1 0 (1 # 10) (replicate 100 (1%Q, 7)) in
  let d := mkTickDraws (1 # 1000) (1 # 2) 1 (2 # 100) 50 50 in
  (length (history state) <= 100)%nat /\
  let '(new_price, change, state') := update_pair (fun v => v) state d in
  let sample := (new_price, d_history_time d) in
  ((length (history state) < 100)%nat ->
   history state' = history state ++ [sample]) /\
  (length (history state) = 100%nat ->
   length (history state') = 50%nat /\
   exists dropped, length dropped = 51%nat /\
                   history state ++ [sample] = dropped ++ history state') /\
  (1 <= length (history state') <= 100)%nat /\
  last (history state') = Some sample /\
  price state' = new_price /\ last_alert state' = last_alert state.
Proof.
  cbv zeta. split; [vm_compute; lia |].
  apply (update_pair_history (fun v => v)
           (mkPairState 1 0 (1 # 10) (replicate 100 (1%Q, 7)))
           (mkTickDraws (1 # 1000) (1 # 2) 1 (2 # 100) 50 50)).
  vm_compute. lia.
Defined.

Lemma update_pair_last_alert (pow_half : Q -> Q) (state : PairState) (d : TickDraws) :
  forall new_price change state',
    update_pair pow_half state d = (new_price, change, state') ->
    last_alert state' = last_alert state.
Proof.
  intros np ch st'. unfold update_pair.
  destruct (Qgt_dec (5 # 100) (d_roll d)); intros [= _ _ <-]; reflexivity.
Qed.

(** What a producer's [put] can do to the agent. *)
Lemma enqueue_outcome (a : ForexAgent) (priority now : Z) (event : Event) :
  match enqueue a (Some (priority, event)) now with
  | Ok a' =>
      market_state a' = market_state a /\ resource_lock a' = resource_lock a /\
      console a' = console a /\ calls a' = calls a /\
      last_alert_time a' = last_alert_time a /\
      _queue (event_queue a') ≡ₚ mkEntry priority now event :: _queue (event_queue a)
  | Raise e =>
      e = TypeError /\
      exists y, y ∈ _queue (event_queue a) /\ collide (mkEntry priority now event) y
  end.
Proof.
  unfold enqueue, put.
  pose proof (heappush_any (_queue (event_queue a)) (mkEntry priority now event)) as H.
  destruct (heapq.heappush (_queue (event_queue a)) (mkEntry priority now event));
    cbn [bind]; [| done].
  simpl. by repeat split.
Qed.

(** X13: a price tick of a pair that has its entry never touches the lock,
    the console, the calls or any [last_alert]; it changes that pair's entry
    only, and puts at most one entry, of priority 1 or 2, for that pair.  It
    can fail in one way only: [TypeError], when a queued entry of the same
    priority carries the clock value this [put] reads. *)
Theorem tick_pair_outcome (pow_half : Q -> Q) (a : ForexAgent) (pair : string)
    (state : PairState) (d : TickDraws) :
  market_state a !! pair = Some state ->
  match tick_pair pow_half a pair d with
  | Ok a' =>
      resource_lock a' = resource_lock a /\ console a' = console a /\
      calls a' = calls a /\ last_alert_time a' = last_alert_time a /\
      (forall p, p <> pair -> market_state a' !! p = market_state a !! p) /\
      (exists state', market_state a' !! pair = Some state' /\
                      last_alert state' = last_alert state) /\
      (event_queue a' = event_queue a \/
       exists entry,
         _queue (event_queue a') ≡ₚ entry :: _queue (event_queue a) /\
         (e_priority entry = 1 \/ e_priority entry = 2) /\
         e_time entry = d_put_time d /\ event_pair (e_event entry) = pair)
  | Raise e =>
      e = TypeError /\
      exists y, y ∈ _queue (event_queue a) /\ e_time y = d_put_time d /\
                (e_priority y = 1 \/ e_priority y = 2)
  end.
Proof.
  intros Hst. unfold tick_pair, dict_get. rewrite Hst. cbn [bind].
  destruct (update_pair pow_half state d) as [[np ch] st'] eqn:Hup.
  pose proof (update_pair_last_alert _ _ _ _ _ _ Hup) as Hla.
  rewrite movement_event_spec. cbn [bind].
  assert (Hput : forall priority, priority = 1 \/ priority = 2 ->
    match enqueue (set_pair_state a pair st')
            (Some (priority, PriceEvent pair (ch * 100) np)) (d_put_time d) with
    | Ok a' =>
        resource_lock a' = resource_lock a /\ console a' = console a /\
        calls a' = calls a /\ last_alert_time a' = last_alert_time a /\
        (forall p, p <> pair -> market_state a' !! p = market_state a !! p) /\
        (exists state', market_state a' !! pair = Some state' /\
                        last_alert state' = last_alert state) /\
        (event_queue a' = event_queue a \/
         exists entry,
           _queue (event_queue a') ≡ₚ entry :: _queue (event_queue a) /\
           (e_priority entry = 1 \/ e_priority entry = 2) /\
           e_time entry = d_put_time d /\ event_pair (e_event entry) = pair)
    | Raise e =>
        e = TypeError /\
        exists y, y ∈ _queue (event_queue a) /\ e_time y = d_put_time d /\
                  (e_priority y = 1 \/ e_priority y = 2)
    end).
  { intros priority Hp.
    pose proof (enqueue_outcome (set_pair_state a pair st') priority (d_put_time d)
                  (PriceEvent pair (ch * 100) np)) as H.
    destruct (enqueue (set_pair_state a pair st') _ _) as [a' | e].
    - destruct H as (Hm & -> & -> & -> & -> & Hq). simpl in *.
      repeat split; try done.
      + intros p Hne. rewrite Hm. by rewrite lookup_insert_ne.
      + exists st'. rewrite Hm. by rewrite lookup_insert_eq.
      + right. eexists. split; [exact Hq |]. simpl. by repeat split.
    - destruct H as (-> & y & Hy & Hprio & Htime & _). simpl in *.
      split; [done |]. exists y. repeat split; [done | done |].
      rewrite <- Hprio. done. }
  destruct (Qgt_dec (Qabs (ch * 100)) (15 # 10)); [apply Hput; by left |].
  destruct (Qgt_dec (Qabs (ch * 100)) (8 # 10)); [apply Hput; by right |].
  simpl. repeat split; try done.
  - intros p Hne. by rewrite lookup_insert_ne.
  - exists st'. by rewrite lookup_insert_eq.
  - by left.
Qed.

Lemma tick_pair_outcome_witness :
  let a := new_agent (fun _ => 1%Q) in
  let d := mkTickDraws 0 (1 # 100) 1 (2 # 100) 50 50 in
  let state := mkPairState 1 0 (1 # 10) [] in
  match tick_pair (fun v => v) a "EUR/USD" d with
  | Ok a' =>
      resource_lock a' = resource_lock a /\ console a' = console a /\
      calls a' = calls a /\ last_alert_time a' = last_alert_time a /\
      (forall p, p <> "EUR/USD" -> market_state a' !! p = market_state a !! p) /\
      (exists state', market_state a' !! "EUR/USD" = Some state' /\
                      last_alert state' = last_alert state) /\
      (event_queue a' = event_queue a \/
       exists entry,
         _queue (event_queue a') ≡ₚ entry :: _queue (event_queue a) /\
         (e_priority entry = 1 \/ e_priority entry = 2) /\
         e_time entry = d_put_time d /\ event_pair (e_event entry) = "EUR/USD")
  | Raise e =>
      e = TypeError /\
      exists y, y ∈ _queue (event_queue a) /\ e_time y = d_put_time d /\
                (e_priority y = 1 \/ e_priority y = 2)
  end.
Proof.
  cbv zeta.
  apply (tick_pair_outcome (fun v => v) (new_agent (fun _ => 1%Q)) "EUR/USD"
           (mkPairState 1 0 (1 # 10) [])).
  vm_compute. reflexivity.
Defined.

Lemma priority_breaking_news : dict_get EVENT_PRIORITIES "breaking_news" = Ok 1.
Proof. vm_compute. reflexivity. Qed.

Lemma priority_news : dict_get EVENT_PRIORITIES "news" = Ok 3.
Proof. vm_compute. reflexivity. Qed.

(** X14: a round of the news producer never touches [market_state], the
    lock, the console or the calls; it puts at most one entry, a news event
    of the chosen headline with priority 1 or 3.  It can fail only with
    [TypeError], when a queued entry of the same priority carries the clock
    value this [put] reads, or with [IndexError] for a choice outside the
    headline list. *)
Theorem news_tick_outcome (a : ForexAgent) (roll : Q) (choice : nat) (now : Z) :
  match news_tick a roll choice now with
  | Ok a' =>
      market_state a' = market_state a /\ resource_lock a' = resource_lock a /\
      console a' = console a /\ calls a' = calls a /\
      last_alert_time a' = last_alert_time a /\
      (event_queue a' = event_queue a \/
       exists entry headline p,
         _queue (event_queue a') ≡ₚ entry :: _queue (event_queue a) /\
         (e_priority entry = 1 \/ e_priority entry = 3) /\
         e_time entry = now /\ e_event entry = NewsEvent headline p /\
         sample_news !! choice = Some (headline, p))
  | Raise e =>
      (e = IndexError /\ (length sample_news <= choice)%nat) \/
      (e = TypeError /\
       exists y, y ∈ _queue (event_queue a) /\ e_time y = now /\
                 (e_priority y = 1 \/ e_priority y = 3))
  end.
Proof.
  unfold news_tick.
  destruct (Qgt_dec (2 # 100) roll) as [Hroll | Hroll];
    [| repeat split; try done; by left].
  unfold news_item.
  destruct (sample_news !! choice) as [[headline p] |] eqn:Hc; cbn [bind].
  2: { left. split; [done |]. by apply lookup_ge_None. }
  assert (Hprio : exists priority,
    (if existsb (fun kw => contains kw (lower headline)) breaking_keywords
     then dict_get EVENT_PRIORITIES "breaking_news"
     else dict_get EVENT_PRIORITIES "news") = Ok priority /\
    (priority = 1 \/ priority = 3)).
  { destruct (existsb _ _); [rewrite priority_breaking_news | rewrite priority_news];
      eauto. }
  destruct Hprio as (priority & -> & Hp). cbn [bind fst snd].
  pose proof (enqueue_outcome a priority now (NewsEvent headline p)) as H.
  unfold enqueue in H.
  destruct (put (event_queue a) priority now (NewsEvent headline p)) as [q1 | e];
    cbn [bind] in *.
  - destruct H as (_ & _ & _ & _ & _ & Hq). simpl in *.
    repeat split; try done. right. exists (mkEntry priority now (NewsEvent headline p)).
    exists headline, p. by repeat split.
  - right. destruct H as (-> & y & Hy & Hprio & Htime & _). simpl in *.
    split; [done |]. exists y. repeat split; [done | done |]. by rewrite <- Hprio.
Qed.

(** ** The lock is never left taken *)

Lemma holders_positive (ps : list Sched.pc) :
  (0 < Sched.holders ps)%nat <-> exists i event, ps !! i = Some (Sched.Handling event).
Proof.
  unfold Sched.holders. induction ps as [| p ps IH].
  - split; [simpl; lia | intros (i & ev & Hi); done].
  - rewrite filter_cons.
    destruct (decide (Sched.in_critical_section p = true)) as [Hp | Hp].
    + split; [intros _ | simpl; lia].
      destruct p as [| ev | ev | | e]; try discriminate Hp. by exists 0%nat, ev.
    + rewrite IH. split.
      * intros (i & ev & Hi). by exists (S i), ev.
      * intros ([| i] & ev & Hi); simpl in Hi; [by simplify_eq | eauto].
Qed.

(** X15: in every state the tasks can reach, the lock is taken exactly when
    some task is inside the [async with] block: a task that left the block,
    also by an exception, has released it, and no task is inside without
    holding it. *)
Theorem lock_taken_iff_handling (n : nat) (s : Sched.state) :
  rtc Sched.step (Sched.init n) s ->
  (Sched.locked s = true <->
   exists i event, Sched.procs s !! i = Some (Sched.Handling event)).
Proof.
  intros Hr. pose proof (lock_inv_reachable n s Hr) as Hinv.
  unfold lock_inv in Hinv. rewrite <- holders_positive.
  destruct (Sched.locked s); split; intros; try done; lia.
Qed.

Lemma lock_taken_iff_handling_witness :
  let event := NewsEvent "ECB announces emergency rate hike" "EUR/USD" in
  let s := Sched.mkState (mkQueue [] true) false [Sched.Terminated TypeError] in
  rtc Sched.step (Sched.init 1) s /\
  (Sched.locked s = true <->
   exists i event, Sched.procs s !! i = Some (Sched.Handling event)).
Proof.
  cbv zeta.
  assert (Hr : rtc Sched.step (Sched.init 1)
                 (Sched.mkState (mkQueue [] true) false [Sched.Terminated TypeError])).
  { eapply rtc_l.
    { apply (Sched.step_put _ 1 5 (NewsEvent "ECB announces emergency rate hike" "EUR/USD")).
      vm_compute. reflexivity. }
    eapply rtc_l.
    { eapply (Sched.step_get _ 0); [reflexivity | vm_compute; reflexivity]. }
    eapply rtc_l.
    { eapply (Sched.step_acquire _ 0); reflexivity. }
    eapply rtc_l.
    { eapply (Sched.step_raise _ 0 _ TypeError); reflexivity. }
    apply rtc_refl. }
  split; [exact Hr |].
  exact (lock_taken_iff_handling 1 _ Hr).
Defined.

(** ** The health report *)

Lemma pair_statuses_ok (a : ForexAgent) (clock : string -> Z) (pairs : list string) :
  (forall p, p ∈ pairs -> is_Some (market_state a !! p)) ->
  exists lines,
    pair_statuses a clock pairs = (lines, None) /\ length lines = length pairs /\
    forall p state, p ∈ pairs -> market_state a !! p = Some state ->
                    status_line p state (clock p) ∈ lines.
Proof.
  induction pairs as [| p rest IH]; intros Hall.
  - exists []. repeat split. intros p st Hp. by apply elem_of_nil in Hp.
  - destruct (Hall p) as [st Hst]; [by left |].
    destruct IH as (lines & Hrun & Hlen & Hin); [intros; apply Hall; by right |].
    cbn [pair_statuses]. unfold pair_status, dict_get. rewrite Hst. cbn [bind].
    rewrite Hrun. eexists. split; [reflexivity |].
    split; [simpl; by rewrite Hlen |].
    intros p' st' Hp' Hst'. apply elem_of_cons in Hp' as [-> | Hp'].
    + simplify_eq. by left.
    + right. by apply Hin.
Qed.

Lemma pair_statuses_raise (a : ForexAgent) (clock : string -> Z) (pairs : list string) :
  forall e, snd (pair_statuses a clock pairs) = Some e ->
            exists p, p ∈ pairs /\ market_state a !! p = None /\ e = KeyError p.
Proof.
  induction pairs as [| p rest IH]; intros e Hrun; [done |].
  cbn [pair_statuses] in Hrun. unfold pair_status, dict_get in Hrun.
  destruct (market_state a !! p) as [st |] eqn:Hst; cbn [bind] in Hrun.
  - destruct (pair_statuses a clock rest) as [ls r] eqn:Hrest. simpl in Hrun.
    destruct (IH e Hrun) as (p' & Hp' & Hnone & ->).
    exists p'. split; [by right | done].
  - simpl in Hrun. injection Hrun as <-. exists p. split; [by left | done].
Qed.

Lemma pair_statuses_complete (a : ForexAgent) (clock : string -> Z)
    (pairs : list string) :
  snd (pair_statuses a clock pairs) = None ->
  forall p, p ∈ pairs -> is_Some (market_state a !! p).
Proof.
  induction pairs as [| p rest IH]; intros Hrun p' Hp'.
  - by apply elem_of_nil in Hp'.
  - cbn [pair_statuses] in Hrun. unfold pair_status, dict_get in Hrun.
    destruct (market_state a !! p) as [st |] eqn:Hst; cbn [bind] in Hrun; [| done].
    destruct (pair_statuses a clock rest) as [ls r] eqn:Hrest. simpl in Hrun.
    apply elem_of_cons in Hp' as [-> | Hp']; [by rewrite Hst |].
    by apply IH.
Qed.

(** X16: a round of [system_monitor] always prints the header lines with the
    queue depth; it completes exactly when every monitored pair has its
    [market_state] entry, and is otherwise ended by the [KeyError] of a
    missing pair.  A completed round has one line per monitored pair,
    showing "Never" for a pair whose [last_alert] is not positive and the
    seconds since [last_alert] otherwise. *)
Theorem system_monitor_report (a : ForexAgent) (clock : string -> Z) :
  (exists lines, fst (system_monitor a clock) =
     StatusHeader :: StatusMonitored monitored_pairs ::
     StatusQueueDepth (length (_queue (event_queue a))) :: StatusLatest :: lines) /\
  (all_monitored a <-> snd (system_monitor a clock) = None) /\
  (forall e, snd (system_monitor a clock) = Some e ->
     exists p, p ∈ monitored_pairs /\ market_state a !! p = None /\ e = KeyError p) /\
  (snd (system_monitor a clock) = None ->
   length (fst (system_monitor a clock)) = (4 + length monitored_pairs)%nat /\
   forall p state, p ∈ monitored_pairs -> market_state a !! p = Some state ->
                   status_line p state (clock p) ∈ fst (system_monitor a clock)).
Proof.
  unfold system_monitor.
  destruct (pair_statuses a clock monitored_pairs) as [ls r] eqn:Hps.
  cbn [fst snd].
  assert (Hiff : all_monitored a <-> r = None).
  { split.
    - intros Hall. destruct (pair_statuses_ok a clock monitored_pairs Hall)
        as (ls' & Hrun & _). rewrite Hps in Hrun. by injection Hrun.
    - intros -> p Hp.
      apply (pair_statuses_complete a clock monitored_pairs); [| done].
      by rewrite Hps. }
  split; [eauto |]. split; [done |]. split.
  - intros e ->. pose proof (pair_statuses_raise a clock monitored_pairs e) as Hr.
    rewrite Hps in Hr. by apply Hr.
  - intros ->. destruct (pair_statuses_ok a clock monitored_pairs) as (ls' & Hrun & Hlen & Hin).
    { by apply Hiff. }
    rewrite Hps in Hrun. injection Hrun as <-.
    split; [simpl; by rewrite Hlen |].
    intros p st Hp Hst. do 4 right. by apply Hin.
Qed.

Lemma all_monitored_new_agent (draw : string -> Q) : all_monitored (new_agent draw).
Proof. intros pair Hp. by apply monitored_pairs_have_state. Qed.

(** X17: the entries of the monitored pairs are never removed: a price
    tick, a round of the news producer and the handling of an event, when
    they return, all leave every monitored pair with an entry, so that the
    health report does not fail after them. *)
Theorem all_monitored_preserved (pow_half : Q -> Q) (a a' : ForexAgent) :
  all_monitored a ->
  (forall pair d, tick_pair pow_half a pair d = Ok a' -> all_monitored a') /\
  (forall roll choice now, news_tick a roll choice now = Ok a' -> all_monitored a') /\
  (forall x event, handle_event a x event = Ok a' -> all_monitored a').
Proof.
  intros Hall. split; [| split].
  - intros pair d Hrun p Hp. specialize (Hall p Hp).
    unfold tick_pair, dict_get in Hrun.
    destruct (market_state a !! pair) as [st |] eqn:Hst; [| done].
    cbn [bind] in Hrun.
    destruct (update_pair pow_half st d) as [[np ch] st'].
    rewrite movement_event_spec in Hrun. cbn [bind] in Hrun.
    assert (Hset : is_Some (market_state (set_pair_state a pair st') !! p)).
    { simpl. destruct (decide (pair = p)) as [-> | Hne].
      - rewrite lookup_insert_eq. eauto.
      - by rewrite lookup_insert_ne. }
    assert (Hput : forall e, enqueue (set_pair_state a pair st') (Some e) (d_put_time d)
                             = Ok a' -> is_Some (market_state a' !! p)).
    { intros [pr ev] Hq.
      pose proof (enqueue_outcome (set_pair_state a pair st') pr (d_put_time d) ev) as H.
      rewrite Hq in H. destruct H as (-> & _). done. }
    destruct (Qgt_dec (Qabs (ch * 100)) (15 # 10)); [by apply Hput in Hrun |].
    destruct (Qgt_dec (Qabs (ch * 100)) (8 # 10)); [by apply Hput in Hrun |].
    simpl in Hrun. by injection Hrun as <-.
  - intros roll choice t Hrun p Hp. specialize (Hall p Hp).
    unfold news_tick in Hrun.
    destruct (Qgt_dec (2 # 100) roll); [| by injection Hrun as <-].
    destruct (news_item choice) as [[pr ev] |]; [| done]. cbn [bind fst snd] in Hrun.
    pose proof (enqueue_outcome a pr t ev) as H. unfold enqueue in H.
    destruct (put (event_queue a) pr t ev); [| done]. cbn [bind] in *.
    injection Hrun as <-. destruct H as (Hm & _). simpl in *. done.
  - intros x event Hrun p Hp. specialize (Hall p Hp).
    assert (Hpair : is_Some (market_state a !! event_pair event)).
    { destruct (market_state a !! event_pair event) eqn:Hst; [eauto |].
      destruct event as [pr c prc | h pr]; simpl in *.
      - unfold handle_price_event, dict_get in Hrun. by rewrite Hst in Hrun.
      - unfold handle_news_event in Hrun.
        destruct (generate x); [| done]. cbn [bind] in Hrun.
        unfold maybe_trigger_alert, dict_get in Hrun. by rewrite Hst in Hrun. }
    assert (Hgen : exists s, generate x = Ok s).
    { destruct (generate x) as [s |] eqn:Hg; [eauto |].
      destruct Hpair as [st Hst].
      destruct event as [pr c prc | h pr]; simpl in *.
      - unfold handle_price_event, dict_get in Hrun. rewrite Hst in Hrun.
        cbn [bind] in Hrun. by rewrite Hg in Hrun.
      - unfold handle_news_event in Hrun. by rewrite Hg in Hrun. }
    destruct Hgen as [s Hg].
    destruct (handle_event_ok a x event s Hpair Hg) as (a3 & Hrun3 & _ & _ & _ & Hdom).
    rewrite Hrun in Hrun3. injection Hrun3 as <-. by apply Hdom.
Qed.

Lemma all_monitored_preserved_witness :
  let a := new_agent (fun _ => 1%Q) in
  let a' := print a (LogCooldown "EUR/USD") in
  all_monitored a /\
  (forall pair d, tick_pair (fun v => v) a pair d = Ok a' -> all_monitored a') /\
  (forall roll choice now, news_tick a roll choice now = Ok a' -> all_monitored a') /\
  (forall x event, handle_event a x event = Ok a' -> all_monitored a').
Proof.
  cbv zeta. split; [apply all_monitored_new_agent |].
  apply all_monitored_preserved, all_monitored_new_agent.
Defined.

(** X18: after a dispatch that went through for a monitored pair at a
    positive time [now x], the health report shows that pair as alerted
    [clock - now x] seconds ago, with its price unchanged. *)
Theorem report_after_dispatch (a : ForexAgent) (x : Externals) (clock : string -> Z)
    (title : Title) (message pair call_id : string) (state : PairState) :
  all_monitored a ->
  pair ∈ monitored_pairs ->
  market_state a !! pair = Some state ->
  gate_permits a x pair ->
  configured (environ x) = true ->
  (response <- voice_call x (the_call (environ x)) ;; extract_call_id response)
    = Ok call_id ->
  0 < now x ->
  exists a' lines,
    maybe_trigger_alert a x title message pair = Ok a' /\
    system_monitor a' clock = (lines, None) /\
    StatusPair pair (price state) (SecondsAgo (clock pair - now x)) ∈ lines.
Proof.
  intros Hall Hpair Hst Hgate Hconf Hcall Hpos.
  rewrite (maybe_trigger_alert_permitted _ _ _ _ _ Hgate). cbv zeta.
  rewrite Hconf, Hcall. cbn [negb]. eexists.
  set (a' := set_last_alert _ pair (now x)).
  assert (Hst' : market_state a' !! pair =
                 Some (mkPairState (price state) (now x) (volatility state)
                                   (history state))).
  { subst a'. simpl. by rewrite lookup_alter_eq, Hst. }
  assert (Hall' : all_monitored a').
  { intros p Hp. destruct (decide (p = pair)) as [-> | Hne]; [by rewrite Hst' |].
    subst a'. simpl. rewrite lookup_alter_ne by done. by apply Hall. }
  unfold system_monitor.
  destruct (pair_statuses_ok a' clock monitored_pairs Hall') as (ls & -> & _ & Hin).
  eexists. split; [reflexivity |]. split; [reflexivity |].
  do 4 right. specialize (Hin pair _ Hpair Hst'). unfold status_line in Hin.
  simpl in Hin. destruct (Z.ltb_spec 0 (now x)); [done | lia].
Qed.

Lemma report_after_dispatch_witness :
  let env : gmap string string :=
    list_to_map [("AFRICASTALKING_USERNAME", "sandbox");
                 ("AFRICASTALKING_API_KEY", "key");
                 ("YOUR_PHONE_NUMBER", "+254700000000")] in
  let a := new_agent (fun _ => 1%Q) in
  let x := mkExternals 1000 9 env (Ok "analysis")
             (fun _ => Ok (mkResponse (Some [Some "call-1"]))) in
  let clock := fun _ : string => 1060 in
  exists a' lines,
    maybe_trigger_alert a x (PriceTitle "EUR/USD" 2) "analysis" "EUR/USD" = Ok a' /\
    system_monitor a' clock = (lines, None) /\
    StatusPair "EUR/USD" (price (mkPairState 1 0 (1 # 10) []))
      (SecondsAgo (clock "EUR/USD" - now x)) ∈ lines.
Proof.
  cbv zeta.
  apply (report_after_dispatch _ _ _ _ _ _ "call-1").
  - apply all_monitored_new_agent.
  - unfold monitored_pairs. by left.
  - vm_compute. reflexivity.
  - fresh_pair_gate.
  - vm_compute. reflexivity.
  - vm_compute. reflexivity.
  - simpl. lia.
Defined.

(** ** Sequences of [put] and [get] on any queue *)

Lemma put_all_perm (pushes : list Entry) :
  forall q q', put_all q pushes = Ok q' -> _queue q' ≡ₚ _queue q ++ pushes.
Proof.
  induction pushes as [| p rest IH]; intros q q' Hrun; cbn [put_all] in Hrun.
  - injection Hrun as <-. by rewrite app_nil_r.
  - unfold put in Hrun.
    pose proof (heappush_any (_queue q) (mkEntry (e_priority p) (e_time p) (e_event p)))
      as H.
    destruct (heapq.heappush _ _) as [h |]; [| done]. cbn [bind] in Hrun.
    apply IH in Hrun. rewrite Hrun. cbn [_queue]. rewrite H.
    replace (mkEntry (e_priority p) (e_time p) (e_event p)) with p by by destruct p.
    by rewrite <- Permutation_middle.
Qed.

Lemma get_n_perm (n : nat) :
  forall q events, get_n n q = Ok events ->
    exists out rest, events = e_event <$> out /\ length out = n /\
                     _queue q ≡ₚ out ++ rest.
Proof.
  induction n as [| n IH]; intros q events Hrun; cbn [get_n] in Hrun.
  - injection Hrun as <-. by exists [], (_queue q).
  - unfold get in Hrun. destruct (_queue q) as [| e0 t] eqn:Hq; [done |].
    pose proof (heappop_any (e0 :: t)) as H.
    destruct (heapq.heappop (e0 :: t)) as [[item h] |]; [| done].
    cbn [bind] in Hrun.
    destruct (get_n n _) as [evs |] eqn:Hrest; [| done]. cbn [bind] in Hrun.
    injection Hrun as <-.
    apply IH in Hrest as (out & rest & -> & Hlen & Hp). cbn [_queue] in Hp.
    exists (item :: out), rest. split; [done |]. split; [simpl; lia |].
    rewrite H, Hp. done.
Qed.

(** X19: whatever the clock readings, when a series of [put] calls on the
    new queue and as many [get] calls all return, the events returned are
    the events pushed, each exactly once. *)
Theorem no_event_lost (pushes : list Entry) (q : PriorityEventQueue)
    (events : list Event) :
  put_all new_queue pushes = Ok q ->
  get_n (length pushes) q = Ok events ->
  events ≡ₚ e_event <$> pushes.
Proof.
  intros Hput Hget. apply put_all_perm in Hput. simpl in Hput.
  apply get_n_perm in Hget as (out & rest & -> & Hlen & Hp).
  assert (rest = []) as ->.
  { apply nil_length_inv. apply Permutation_length in Hp, Hput.
    rewrite length_app in Hp. lia. }
  rewrite app_nil_r in Hp. by rewrite <- Hp, Hput.
Qed.

Lemma no_event_lost_witness :
  let first := NewsEvent "ECB announces emergency rate hike" "EUR/USD" in
  let second := NewsEvent "Political crisis deepens in the UK" "GBP/USD" in
  let pushes := [mkEntry 1 10 first; mkEntry 1 9 second] in
  [second; first] ≡ₚ e_event <$> pushes.
Proof.
  cbv zeta.
  apply (no_event_lost _ (mkQueue
           [mkEntry 1 9 (NewsEvent "Political crisis deepens in the UK" "GBP/USD");
            mkEntry 1 10 (NewsEvent "ECB announces emergency rate hike" "EUR/USD")]
           true)).
  - vm_compute. reflexivity.
  - vm_compute. reflexivity.
Defined.

Lemma sorted_distinct_keys_strict (out : list Entry) :
  NoDup (keyof <$> out) -> StronglySorted key_le out -> StronglySorted key_lt out.
Proof.
  intros Hnd Hso. induction Hso as [| w l Hso IH Hw]; [constructor |].
  rewrite fmap_cons in Hnd. apply NoDup_cons in Hnd as [Hnotin Hnd].
  constructor; [by apply IH |].
  apply Forall_forall. intros y Hy. rewrite Forall_forall in Hw.
  specialize (Hw y Hy).
  assert (keyof w <> keyof y).
  { intros Hk. apply Hnotin. rewrite Hk. by apply list_elem_of_fmap_2. }
  unfold key_lt, key_le, keyof in *.
  destruct (decide (e_priority w = e_priority y)); [| lia].
  destruct (decide (e_time w = e_time y)); [congruence | lia].
Qed.

(** X20: when the [(priority, time)] keys of the pushes are pairwise
    distinct, in whatever order the times come, every [put] and every [get]
    succeeds and the entries are dequeued in ascending priority, and within
    a priority in ascending time. *)
Theorem drain_sorted_by_key (pushes : list Entry) :
  NoDup (keyof <$> pushes) ->
  exists q out,
    put_all new_queue pushes = Ok q /\
    get_n (length pushes) q = Ok (e_event <$> out) /\
    out ≡ₚ pushes /\ StronglySorted key_lt out.
Proof.
  intros Hnd.
  destruct (queue_sorted_by_key pushes Hnd) as (q & out & Hput & Hget & Hp & Hso).
  exists q, out. repeat split; try done.
  apply sorted_distinct_keys_strict; [by rewrite Hp | done].
Qed.

Lemma drain_sorted_by_key_witness :
  let pushes :=
    [mkEntry 3 100 (NewsEvent "Fed signals pause in rate hikes" "EUR/USD");
     mkEntry 1 99 (PriceEvent "USD/JPY" 2 (11 # 10));
     mkEntry 1 98 (NewsEvent "Political crisis deepens in the UK" "GBP/USD")] in
  exists q out,
    put_all new_queue pushes = Ok q /\
    get_n (length pushes) q = Ok (e_event <$> out) /\
    out ≡ₚ pushes /\ StronglySorted key_lt out.
Proof.
  cbv zeta. apply drain_sorted_by_key.
  refine (bool_decide_unpack _ _). vm_compute. exact I.
Defined.

(** ** The state [__init__] builds *)

Lemma init_loop_lookup (draw : string -> Q) (pairs : list string) :
  forall (m : gmap string PairState) (pair : string),
    foldl (fun m p => <[p := mkPairState (draw p) 0 (1 # 10) []]> m) m pairs !! pair =
      if decide (pair ∈ pairs) then Some (mkPairState (draw pair) 0 (1 # 10) [])
      else m !! pair.
Proof.
  induction pairs as [| p rest IH]; intros m pair; cbn [foldl].
  - destruct (decide (pair ∈ [])) as [H | H]; [by apply elem_of_nil in H | done].
  - rewrite IH. destruct (decide (pair ∈ rest)) as [Hin | Hnot].
    + rewrite decide_True by (by right). done.
    + destruct (decide (pair = p)) as [-> | Hne].
      * rewrite decide_True by (by left). by rewrite lookup_insert_eq.
      * rewrite decide_False; [by rewrite lookup_insert_ne |].
        intros H. apply elem_of_cons in H as [? | ?]; done.
Qed.

(** X21: the agent [__init__] builds has a [market_state] entry for exactly
    the monitored pairs, each with its drawn price, [last_alert] 0,
    volatility 0.1 and an empty history; its queue is empty and its lock
    free. *)
Theorem new_agent_state (draw : string -> Q) (pair : string) :
  market_state (new_agent draw) !! pair =
    (if decide (pair ∈ monitored_pairs)
     then Some (mkPairState (draw pair) 0 (1 # 10) []) else None) /\
  _queue (event_queue (new_agent draw)) = [] /\
  resource_lock (new_agent draw) = false.
Proof.
  split; [| done]. unfold new_agent, initial_market_state. cbn [market_state].
  rewrite init_loop_lookup. by case_decide.
Qed.

(** ** What a price tick enqueues *)

(** X22: on a price tick of a pair that has its entry, when no queued entry
    carries the clock value the [put] reads, the tick returns, and with [c]
    the absolute value of the percent change [change * 100] (where the new
    price is the last price times [1 + change]): the queue gains exactly
    one entry of priority 1 for the pair iff [c > 1.5], exactly one of
    priority 2 iff not and [c > 0.8], and is left as it was iff
    [c <= 0.8]. *)
Theorem price_tick_enqueues (pow_half : Q -> Q) (a : ForexAgent) (pair : string)
    (state : PairState) (d : TickDraws) :
  market_state a !! pair = Some state ->
  (forall y, y ∈ _queue (event_queue a) -> e_time y <> d_put_time d) ->
  let '(new_price, change, state') := update_pair pow_half state d in
  let c := Qabs (change * 100) in
  let entry := fun priority =>
    mkEntry priority (d_put_time d) (PriceEvent pair (change * 100) new_price) in
  new_price = (price state * (1 + change))%Q /\
  exists a',
    tick_pair pow_half a pair d = Ok a' /\
    (_queue (event_queue a') ≡ₚ entry 1 :: _queue (event_queue a)
       <-> (15 # 10 < c)%Q) /\
    (_queue (event_queue a') ≡ₚ entry 2 :: _queue (event_queue a)
       <-> ~ (15 # 10 < c)%Q /\ (8 # 10 < c)%Q) /\
    (_queue (event_queue a') = _queue (event_queue a) <-> ~ (8 # 10 < c)%Q).
Proof.
  intros Hst Hfresh.
  destruct (update_pair pow_half state d) as [[np ch] st'] eqn:Hup.
  cbv zeta. split; [by apply (update_pair_price _ _ _ _ _ _ Hup) |].
  unfold tick_pair, dict_get. rewrite Hst. cbn [bind]. rewrite Hup.
  rewrite movement_event_spec. cbn [bind].
  set (q0 := _queue (event_queue a)).
  set (ev := PriceEvent pair (ch * 100) np).
  (* a [put] with this clock value succeeds and adds its entry *)
  assert (Hput : forall priority,
    exists a', enqueue (set_pair_state a pair st') (Some (priority, ev)) (d_put_time d)
                 = Ok a' /\
               _queue (event_queue a') ≡ₚ mkEntry priority (d_put_time d) ev :: q0).
  { intros priority.
    pose proof (enqueue_outcome (set_pair_state a pair st') priority (d_put_time d) ev)
      as H.
    destruct (enqueue (set_pair_state a pair st') _ _) as [a' | e].
    - exists a'. split; [done |]. apply H.
    - destruct H as (_ & y & Hy & _ & Htime & _). simpl in *.
      exfalso. apply (Hfresh y Hy). by rewrite <- Htime. }
  (* the entry of this tick is not in the old queue, whatever its priority *)
  assert (Hnew : forall priority, mkEntry priority (d_put_time d) ev ∉ q0).
  { intros priority Hin. by apply (Hfresh _ Hin). }
  assert (Hgrow : forall priority (l : list Entry),
            l ≡ₚ mkEntry priority (d_put_time d) ev :: q0 -> l <> q0).
  { intros priority l Hl ->. apply Permutation_length in Hl. simpl in Hl. lia. }
  assert (Hone : forall p1 p2 (l : list Entry),
            l ≡ₚ mkEntry p1 (d_put_time d) ev :: q0 ->
            l ≡ₚ mkEntry p2 (d_put_time d) ev :: q0 -> p1 = p2).
  { intros p1 p2 l H1 H2. rewrite H1 in H2.
    assert (Hin : mkEntry p1 (d_put_time d) ev ∈ mkEntry p2 (d_put_time d) ev :: q0)
      by (rewrite <- H2; by left).
    apply elem_of_cons in Hin as [Heq | Hin]; [by injection Heq |].
    by apply Hnew in Hin. }
  destruct (Qgt_dec (Qabs (ch * 100)) (15 # 10)) as [H1 | H1].
  - assert (H2 : (8 # 10 < Qabs (ch * 100))%Q)
      by (eapply Qlt_trans; [| exact H1]; reflexivity).
    destruct (Hput 1) as (a' & -> & Hq). exists a'. split; [done |].
    split; [by split |]. split.
    + split; [| tauto]. intros Hq2. by pose proof (Hone 1 2 _ Hq Hq2).
    + split; [| tauto]. intros Heq. by apply (Hgrow 1) in Hq.
  - apply Qle_not_lt in H1.
    destruct (Qgt_dec (Qabs (ch * 100)) (8 # 10)) as [H2 | H2].
    + destruct (Hput 2) as (a' & -> & Hq). exists a'. split; [done |].
      split; [| split].
      * split; [| tauto]. intros Hq1. by pose proof (Hone 1 2 _ Hq1 Hq).
      * by split.
      * split; [| tauto]. intros Heq. by apply (Hgrow 2) in Hq.
    + apply Qle_not_lt in H2. eexists. split; [reflexivity |]. simpl.
      split; [| split].
      * split; [| tauto]. intros Hq. by apply (Hgrow 1) in Hq.
      * split; [| tauto]. intros Hq. by apply (Hgrow 2) in Hq.
      * by split.
Qed.

Lemma price_tick_enqueues_witness :
  let a := new_agent (fun _ => 1%Q) in
  let state := mkPairState 1 0 (1 # 10) [] in
  let d := mkTickDraws 0 (1 # 100) 1 (2 # 100) 50 50 in
  let sqrt := fun v : Q => v in
  let '(new_price, change, state') := update_pair sqrt state d in
  let c := Qabs (change * 100) in
  let entry := fun priority =>
    mkEntry priority (d_put_time d) (PriceEvent "EUR/USD" (change * 100) new_price) in
  new_price = (price state * (1 + change))%Q /\
  exists a',
    tick_pair sqrt a "EUR/USD" d = Ok a' /\
    (_queue (event_queue a') ≡ₚ entry 1 :: _queue (event_queue a)
       <-> (15 # 10 < c)%Q) /\
    (_queue (event_queue a') ≡ₚ entry 2 :: _queue (event_queue a)
       <-> ~ (15 # 10 < c)%Q /\ (8 # 10 < c)%Q) /\
    (_queue (event_queue a') = _queue (event_queue a) <-> ~ (8 # 10 < c)%Q).
Proof.
  cbv zeta.
  apply (price_tick_enqueues (fun v : Q => v) (new_agent (fun _ => 1%Q)) "EUR/USD"
           (mkPairState 1 0 (1 # 10) []) (mkTickDraws 0 (1 # 100) 1 (2 # 100) 50 50)).
  - vm_compute. reflexivity.
  - intros y Hy. vm_compute in Hy. by apply elem_of_nil in Hy.
Defined.
